(** * newspaper/utils.py: fingerprints, URL de-duplication, time limits

    A shallow embedding of the parts of [newspaper/utils.py] that carry
    invariants: [RawHelper] and [URLHelper] (fingerprints and the
    hash-bang rewrite), [memoize_articles] (the de-duplicator),
    [timelimit] (the time-limit decorator) and [domain_to_filename].

    The module is Python 3 code (f-strings, [urllib.parse], [configparser])
    that calls [Thread.isAlive], so the interpreter modelled here is
    CPython 3.6 to 3.8.  Library functions the module calls
    ([str.replace], [str.find], slicing, [urllib.parse.urlparse],
    [threading.Thread], a psycopg2 cursor) are modelled next to the code
    that uses them. *)

From Stdlib Require Import List NArith ZArith Bool Lia String Ascii.
From Stdlib Require Import Strings.Byte.
From Stdlib Require Import DecimalString DecimalN.
Import ListNotations.

Set Implicit Arguments.

(** ** Python values *)

Module Py.

(** A Python [str] is a sequence of Unicode code points. *)
Definition char := N.
Definition str := list char.

(** The code points of a literal written in the source. *)
Definition lit (s : string) : str :=
  map N_of_ascii (list_ascii_of_string s).

Fixpoint str_eqb (a b : str) : bool :=
  match a, b with
  | [], [] => true
  | x :: a', y :: b' => N.eqb x y && str_eqb a' b'
  | _, _ => false
  end.

(** [s.startswith(p)] *)
Fixpoint startswith (p s : str) : bool :=
  match p, s with
  | [], _ => true
  | x :: p', y :: s' => N.eqb x y && startswith p' s'
  | _ :: _, [] => false
  end.

(** [p in s] for strings: [p] occurs as a contiguous run of [s]. *)
Fixpoint contains (p s : str) : bool :=
  startswith p s ||
  match s with
  | [] => false
  | _ :: s' => contains p s'
  end.

(** [c in s] for a single character. *)
Definition has_char (c : char) (s : str) : bool := existsb (N.eqb c) s.

(** [s.replace(old, new)]: occurrences are found from the left and do not
    overlap.  [skip] counts the characters of a matched occurrence that are
    still to be dropped. *)
Fixpoint replace_from (old new : str) (skip : nat) (s : str) : str :=
  match s with
  | [] => []
  | c :: s' =>
      match skip with
      | S k => replace_from old new k s'
      | O =>
          if startswith old s
          then new ++ replace_from old new (pred (List.length old)) s'
          else c :: replace_from old new 0 s'
      end
  end.

Definition replace (s old new : str) : str :=
  match old with
  | [] => new ++ flat_map (fun c => c :: new) s
  | _ :: _ => replace_from old new 0 s
  end.

(** [s.find(c, start)] for a one-character [c] and [start >= 0]:
    the least index [>= start] holding [c], or [-1]. *)
Fixpoint find_at (c : char) (s : str) (pos : Z) : Z :=
  match s with
  | [] => -1
  | x :: s' => if N.eqb x c then pos else find_at c s' (pos + 1)
  end.

Definition find (s : str) (c : char) (start : nat) : Z :=
  find_at c (skipn start s) (Z.of_nat start).

(** [s.rfind(c)]: the greatest index holding [c], or [-1]. *)
Fixpoint rfind_at (c : char) (s : str) (pos : Z) (found : Z) : Z :=
  match s with
  | [] => found
  | x :: s' => rfind_at c s' (pos + 1) (if N.eqb x c then pos else found)
  end.

Definition rfind (s : str) (c : char) : Z := rfind_at c s 0 (-1).

(** Slice bounds: a negative index counts from the end, and the result is
    clipped to [0 .. len]. *)
Definition clip (len i : Z) : Z :=
  let j := if (i <? 0)%Z then (i + len)%Z else i in
  Z.max 0 (Z.min len j).

(** [s[lo:hi]]; [None] is an omitted bound. *)
Definition slice (s : str) (lo hi : option Z) : str :=
  let n := Z.of_nat (List.length s) in
  let l := match lo with Some i => clip n i | None => 0%Z end in
  let h := match hi with Some i => clip n i | None => n end in
  firstn (Z.to_nat (h - l)) (skipn (Z.to_nat l) s).

(** Exception classes.  [cls_arity] is what the constructor accepts:
    [None] for the inherited variadic [BaseException.__init__], [Some n] for a
    class whose constructor takes exactly [n] positional arguments. *)
Record exc_class := { cls_name : string; cls_arity : option nat }.

#[warnings="-register-all"]
Inductive obj :=
| ONone
| OInt (z : Z)
| OStr (s : str)
| OBytes (b : list byte)
| OExc (cls : exc_class) (args : list obj).

Definition TypeError := {| cls_name := "TypeError"; cls_arity := None |}.
Definition AttributeError := {| cls_name := "AttributeError"; cls_arity := None |}.
Definition IndexError := {| cls_name := "IndexError"; cls_arity := None |}.
Definition KeyError := {| cls_name := "KeyError"; cls_arity := None |}.
Definition ValueError := {| cls_name := "ValueError"; cls_arity := None |}.
Definition UnicodeDecodeError :=
  {| cls_name := "UnicodeDecodeError"; cls_arity := Some 5 |}.

(** The outcome of evaluating an expression or running a body. *)
Inductive result (A : Type) :=
| Return (a : A)
| Raise (cls : exc_class) (args : list obj).
Arguments Return {A} a.
Arguments Raise {A} cls args.

Definition bind {A B} (r : result A) (k : A -> result B) : result B :=
  match r with
  | Return a => k a
  | Raise cls args => Raise cls args
  end.

(** Calling an exception class on a list of positional arguments. *)
Definition new_exc (cls : exc_class) (args : list obj) : result obj :=
  match cls_arity cls with
  | None => Return (OExc cls args)
  | Some n =>
      if Nat.eqb (List.length args) n then Return (OExc cls args)
      else Raise TypeError [OStr (lit "function takes exactly n arguments")]
  end.

(** [raise e] where [e] is the value of an expression. *)
Definition raise_ {A} (e : result obj) : result A :=
  match e with
  | Return (OExc cls args) => Raise cls args
  | Return _ =>
      Raise TypeError [OStr (lit "exceptions must derive from BaseException")]
  | Raise cls args => Raise cls args
  end.

(** The code point of a character literal of the source. *)
Definition ord (a : ascii) : char := N_of_ascii a.
Arguments ord a%_char.

(** [s.encode('utf-8', 'replace')]: a lone surrogate cannot be encoded and
    is replaced by a question mark. *)
Definition byte_of (n : N) : byte :=
  match Byte.of_N (n mod 256) with Some b => b | None => x00 end.

Definition encode_char (c : char) : list byte :=
  (if c <? 0x80 then [byte_of c]
  else if c <? 0x800 then
    [byte_of (0xC0 + c / 0x40); byte_of (0x80 + c mod 0x40)]
  else if (0xD800 <=? c) && (c <=? 0xDFFF) then [byte_of (ord "?")]
  else if c <? 0x10000 then
    [byte_of (0xE0 + c / 0x1000); byte_of (0x80 + (c / 0x40) mod 0x40);
     byte_of (0x80 + c mod 0x40)]
  else
    [byte_of (0xF0 + c / 0x40000); byte_of (0x80 + (c / 0x1000) mod 0x40);
     byte_of (0x80 + (c / 0x40) mod 0x40); byte_of (0x80 + c mod 0x40)])%N.

Definition encode_utf8_replace (s : str) : list byte := flat_map encode_char s.

(** [hashlib.md5(data)] accepts bytes-like data only; the hash object is
    modelled by the bytes it was fed. *)
Definition hashlib_md5 (data : obj) : result (list byte) :=
  match data with
  | OBytes b => Return b
  | OStr _ =>
      Raise TypeError [OStr (lit "Unicode-objects must be encoded before hashing")]
  | _ =>
      Raise TypeError [OStr (lit "object supporting the buffer API required")]
  end.

(** [s[i]] *)
Definition getitem (s : str) (i : Z) : result char :=
  let n := Z.of_nat (List.length s) in
  let j := if (i <? 0)%Z then (i + n)%Z else i in
  if ((0 <=? j) && (j <? n))%Z
  then match nth_error s (Z.to_nat j) with
       | Some c => Return c
       | None => Raise IndexError [OStr (lit "string index out of range")]
       end
  else Raise IndexError [OStr (lit "string index out of range")].

End Py.

Import Py.

Declare Scope py_scope.
Delimit Scope py_scope with py.
Notation "x <- e ;; k" := (bind e (fun x => k))
  (at level 61, e at next level, right associativity) : py_scope.
Notation "e1 +++ e2" := (@app char e1 e2)
  (at level 60, right associativity, only parsing) : py_scope.
Local Open Scope py_scope.

(** ** [domain_to_filename] *)

(** [[
def domain_to_filename(domain):
    filename = domain.replace('/', '-')
    if filename[-1] == '-':
        filename = filename[:-1]
    filename += ".txt"
    return filename
]] *)
Definition domain_to_filename (domain : str) : result str :=
  let filename := replace domain (lit "/") (lit "-") in
  last_ <- getitem filename (-1) ;;
  let filename := if N.eqb last_ (ord "-") then slice filename None (Some (-1)%Z)
                  else filename in
  Return (filename ++ lit ".txt").

(** ** Fingerprints: [RawHelper] and [URLHelper] *)

(** [[
class ParsingCandidate(object):
    def __init__(self, url, link_hash):
        self.url = url
        self.link_hash = link_hash
]] *)
Record ParsingCandidate := { url : str; link_hash : str }.

(** The hash-bang rewrite of [URLHelper.get_parsing_candidate]:
    [[
    final_url = url_to_crawl.replace('#!', '?_escaped_fragment_=') \
        if '#!' in url_to_crawl else url_to_crawl
    ]] *)
Definition final_url (url_to_crawl : str) : str :=
  if contains (lit "#!") url_to_crawl
  then replace url_to_crawl (lit "#!") (lit "?_escaped_fragment_=")
  else url_to_crawl.

Section Fingerprint.

(** The values [time.time()] returns, and how ['%s' % t] prints one. *)
Variable float : Type.
Variable str_of_float : float -> str.

(** The hexadecimal MD5 digest of a byte string. *)
Variable md5_hexdigest : list byte -> str.

(** ['%s.%s' % (digest, t)] *)
Definition fmt_hash (digest : str) (t : float) : str :=
  digest ++ lit "." ++ str_of_float t.

(** [[
def get_parsing_candidate(url, raw_html):
    if isinstance(raw_html, str):
        raw_html = raw_html.encode('utf-8', 'replace')
    link_hash = '%s.%s' % (hashlib.md5(raw_html).hexdigest(), time.time())
    return ParsingCandidate(url, link_hash)
]]
[now] is the value [time.time()] returns during the call. *)
Definition RawHelper_get_parsing_candidate
    (url_ : str) (raw_html : obj) (now : float) : result ParsingCandidate :=
  let raw_html := match raw_html with
                  | OStr s => OBytes (encode_utf8_replace s)
                  | _ => raw_html
                  end in
  h <- hashlib_md5 raw_html ;;
  let link_hash_ := fmt_hash (md5_hexdigest h) now in
  Return {| url := url_; link_hash := link_hash_ |}.

(** [[
def get_parsing_candidate(url_to_crawl):
    final_url = ...
    link_hash = '%s.%s' % (hashlib.md5(final_url).hexdigest(), time.time())
    return ParsingCandidate(final_url, link_hash)
]] *)
Definition URLHelper_get_parsing_candidate
    (url_to_crawl : str) (now : float) : result ParsingCandidate :=
  let final_url_ := final_url url_to_crawl in
  h <- hashlib_md5 (OStr final_url_) ;;
  let link_hash_ := fmt_hash (md5_hexdigest h) now in
  Return {| url := final_url_; link_hash := link_hash_ |}.

End Fingerprint.

(** ** [urllib.parse.urlparse] (as in CPython 3.8.0) *)

Module Urllib.

Record ParseResult := {
  scheme : str; netloc : str; path : str;
  params : str; query : str; fragment : str
}.

Definition scheme_chars : str :=
  lit "abcdefghijklmnopqrstuvwxyzABCDEFGHIJKLMNOPQRSTUVWXYZ0123456789+-.".

Definition uses_params : list str :=
  map lit [""; "ftp"; "hdl"; "prospero"; "http"; "imap"; "https"; "shttp";
           "rtsp"; "rtspu"; "sip"; "sips"; "mms"; "sftp"; "tel"]%string.

(** [s.lower()], used on strings made of [scheme_chars] only. *)
Definition lower (s : str) : str :=
  map (fun c => if (65 <=? c) && (c <=? 90) then c + 32 else c)%N s.

(** [s.isascii()] *)
Definition isascii (s : str) : bool := forallb (fun c => c <? 128)%N s.

(** [s.split(c, 1)] when [c] occurs in [s]: the text before and after the
    first [c]. *)
Fixpoint split1 (s : str) (c : char) : str * str :=
  match s with
  | [] => ([], [])
  | x :: s' =>
      if N.eqb x c then ([], s')
      else let '(a, b) := split1 s' c in (x :: a, b)
  end.

(** [[
def _splitnetloc(url, start=0):
    delim = len(url)
    for c in '/?#':
        wdelim = url.find(c, start)
        if wdelim >= 0:
            delim = min(delim, wdelim)
    return url[start:delim], url[delim:]
]] *)
Definition _splitnetloc (url_ : str) (start : nat) : str * str :=
  let delim :=
    fold_left (fun delim c =>
                 let wdelim := find url_ c start in
                 if (0 <=? wdelim)%Z then Z.min delim wdelim else delim)
              (lit "/?#") (Z.of_nat (List.length url_)) in
  (slice url_ (Some (Z.of_nat start)) (Some delim), slice url_ (Some delim) None).

Definition invalid_ipv6 {A} : result A :=
  Raise ValueError [OStr (lit "Invalid IPv6 URL")].
Definition invalid_nfkc {A} : result A :=
  Raise ValueError
    [OStr (lit "netloc contains invalid characters under NFKC normalization")].

Section Parse.

(** [unicodedata.normalize('NFKC', s)] *)
Variable nfkc : str -> str.

(** [[
def _checknetloc(netloc):
    if not netloc or netloc.isascii():
        return
    n = netloc.replace('@', '')
    n = n.replace(':', '')
    n = n.replace('#', '')
    n = n.replace('?', '')
    netloc2 = unicodedata.normalize('NFKC', n)
    if n == netloc2:
        return
    for c in '/?#@:':
        if c in netloc2:
            raise ValueError(...)
]] *)
Definition _checknetloc (netloc_ : str) : result unit :=
  if match netloc_ with [] => true | _ => isascii netloc_ end
  then Return tt
  else
    let n := replace netloc_ (lit "@") [] in
    let n := replace n (lit ":") [] in
    let n := replace n (lit "#") [] in
    let n := replace n (lit "?") [] in
    let netloc2 := nfkc n in
    if str_eqb n netloc2 then Return tt
    else if existsb (fun c => has_char c netloc2) (lit "/?#@:")
         then invalid_nfkc
         else Return tt.

(** The part of [urlsplit] that follows the scheme, which the source
    writes out twice (once for ['http'], once for the general case).  Its
    first statement finds the network location:
    [[
    if url[:2] == '//':
        netloc, url = _splitnetloc(url, 2)
        if (('[' in netloc and ']' not in netloc) or
                (']' in netloc and '[' not in netloc)):
            raise ValueError("Invalid IPv6 URL")
    ]] *)
Definition netloc_of (url_ : str) : result (str * str) :=
  if str_eqb (slice url_ None (Some 2%Z)) (lit "//")
  then
    let '(n, u) := _splitnetloc url_ 2 in
    if (has_char (ord "[") n && negb (has_char (ord "]") n))
       || (has_char (ord "]") n && negb (has_char (ord "[") n))
    then invalid_ipv6
    else Return (n, u)
  else Return ([], url_).

(** [[
    if allow_fragments and '#' in url:
        url, fragment = url.split('#', 1)
    if '?' in url:
        url, query = url.split('?', 1)
    _checknetloc(netloc)
    v = SplitResult(scheme, netloc, url, query, fragment)
    ]] *)
Definition split_after_scheme (scheme_ url_ : str) : result ParseResult :=
  nu <- netloc_of url_ ;;
  let '(netloc_, url_) := nu in
  let '(url_, fragment_) :=
    if has_char (ord "#") url_ then split1 url_ (ord "#") else (url_, []) in
  let '(url_, query_) :=
    if has_char (ord "?") url_ then split1 url_ (ord "?") else (url_, []) in
  _ <- _checknetloc netloc_ ;;
  Return {| scheme := scheme_; netloc := netloc_; path := url_;
            params := []; query := query_; fragment := fragment_ |}.

(** [[
def urlsplit(url, scheme='', allow_fragments=True):
    ...
    netloc = query = fragment = ''
    i = url.find(':')
    if i > 0:
        if url[:i] == 'http': # optimize the common case
            url = url[i+1:]
            ...
            return _coerce_result(v)
        for c in url[:i]:
            if c not in scheme_chars:
                break
        else:
            # make sure "url" is not actually a port number (in which case
            # "scheme" is really part of the path)
            rest = url[i+1:]
            if not rest or any(c not in '0123456789' for c in rest):
                # not a port number
                scheme, url = url[:i].lower(), rest
    ...
]] *)
Definition urlsplit (url_ : str) : result ParseResult :=
  let i := find url_ (ord ":") 0 in
  if (0 <? i)%Z then
    if str_eqb (slice url_ None (Some i)) (lit "http")
    then split_after_scheme (lit "http") (slice url_ (Some (i + 1)%Z) None)
    else
      if forallb (fun c => has_char c scheme_chars) (slice url_ None (Some i))
      then
        let rest := slice url_ (Some (i + 1)%Z) None in
        if match rest with [] => true | _ => false end
           || existsb (fun c => negb (has_char c (lit "0123456789"))) rest
        then split_after_scheme (lower (slice url_ None (Some i))) rest
        else split_after_scheme [] url_
      else split_after_scheme [] url_
  else split_after_scheme [] url_.

(** [[
def _splitparams(url):
    if '/'  in url:
        i = url.find(';', url.rfind('/'))
        if i < 0:
            return url, ''
    else:
        i = url.find(';')
    return url[:i], url[i+1:]
]] *)
Definition _splitparams (url_ : str) : str * str :=
  if has_char (ord "/") url_ then
    let i := find url_ (ord ";") (Z.to_nat (rfind url_ (ord "/"))) in
    if (i <? 0)%Z then (url_, [])
    else (slice url_ None (Some i), slice url_ (Some (i + 1)%Z) None)
  else
    let i := find url_ (ord ";") 0 in
    (slice url_ None (Some i), slice url_ (Some (i + 1)%Z) None).

(** [[
def urlparse(url, scheme='', allow_fragments=True):
    splitresult = urlsplit(url, scheme, allow_fragments)
    scheme, netloc, url, query, fragment = splitresult
    if scheme in uses_params and ';' in url:
        url, params = _splitparams(url)
    else:
        params = ''
    result = ParseResult(scheme, netloc, url, params, query, fragment)
]] *)
Definition urlparse (url_ : str) : result ParseResult :=
  r <- urlsplit url_ ;;
  let '(url_, params_) :=
    if existsb (str_eqb (scheme r)) uses_params && has_char (ord ";") (path r)
    then _splitparams (path r) else (path r, []) in
  Return {| scheme := scheme r; netloc := netloc r; path := url_;
            params := params_; query := query r; fragment := fragment r |}.

End Parse.

End Urllib.

(** ** Dictionaries

    A [dict] keyed by strings, as an association list in insertion order
    with at most one entry per key. *)

Module Dict.
Section Dict.

Variable V : Type.

Definition t := list (str * V).

(** [d[k] = v]: an existing key keeps its place, a new one goes last. *)
Fixpoint set (d : t) (k : str) (v : V) : t :=
  match d with
  | [] => [(k, v)]
  | (k', v') :: d' =>
      if str_eqb k' k then (k', v) :: d' else (k', v') :: set d' k v
  end.

(** [d.get(k)] *)
Fixpoint get (d : t) (k : str) : option V :=
  match d with
  | [] => None
  | (k', v') :: d' => if str_eqb k' k then Some v' else get d' k
  end.

(** [del d[k]] *)
Fixpoint del (d : t) (k : str) : result t :=
  match d with
  | [] => Raise KeyError [OStr k]
  | (k', v') :: d' =>
      if str_eqb k' k then Return d'
      else d'' <- del d' k ;; Return ((k', v') :: d'')
  end.

Definition items (d : t) : list (str * V) := d.
Definition keys (d : t) : list str := map fst d.
Definition values (d : t) : list V := map snd d.

End Dict.
End Dict.

(** ** The store handle and [memoize_articles] *)

(** A row of table [urls]. *)
Record row := { id : Z; href : str }.

(** An open connection, seen through the one query the module issues: the
    rows of table [urls]. *)
Definition connection := list row.

Definition no_cursor {A} : result A :=
  Raise AttributeError [OStr (lit "'NoneType' object has no attribute 'cursor'")].

(** [conn.cursor()] where [conn] is the module-level handle: [db_connect]
    returns [None] when the connection could not be established. *)
Definition cursor (conn : option connection) : result connection :=
  match conn with
  | Some c => Return c
  | None => no_cursor
  end.

(** [[
c.execute('SELECT id FROM urls WHERE href = %s', (h,))
existing_id = c.fetchone()
]] *)
Definition fetchone_id (c : connection) (h : str) : option Z :=
  match List.find (fun r => str_eqb (href r) h) c with
  | Some r => Some (id r)
  | None => None
  end.

Section Memoize.

Variable nfkc : str -> str.

(** The items of a batch: any objects with a [url] attribute. *)
Variable Article : Type.
Variable article_url : Article -> str.

(** [{article.url: article for article in articles}] *)
Definition collapse (articles : list Article) : Dict.t Article :=
  fold_left (fun d article => Dict.set d (article_url article) article)
            articles [].

(** The parameter of the query issued for [url]:
    [[
    u = urlparse(url)
    ... (f'{u.netloc}{u.path}',)
    ]] *)
Definition href_of (url_ : str) : result str :=
  u <- Urllib.urlparse nfkc url_ ;;
  Return (Urllib.netloc u ++ Urllib.path u).

(** Whether the store has a row for the host and path of [url_]: the test
    [existing_id != None] of the loop body. *)
Definition seen (db : connection) (url_ : str) : bool :=
  match href_of url_ with
  | Return h => match fetchone_id db h with Some _ => true | None => false end
  | Raise _ _ => false
  end.

(** One round of the loop body, for the entry with key [url_]:
    [[
    with conn.cursor() as c:
        u = urlparse(url)
        c.execute('SELECT id FROM urls WHERE href = %s', (f'{u.netloc}{u.path}',))
        existing_id = c.fetchone()
        if existing_id != None:
            del current_articles[url]
    ]] *)
Definition memoize_step (conn : option connection) (url_ : str)
    (current_articles : Dict.t Article) : result (Dict.t Article) :=
  c <- cursor conn ;;
  h <- href_of url_ ;;
  match fetchone_id c h with
  | Some _ => Dict.del current_articles url_
  | None => Return current_articles
  end.

(** [for url, article in list(current_articles.items()): ...] over the
    snapshot [items_]. *)
Fixpoint memoize_loop (conn : option connection)
    (items_ : list (str * Article)) (current_articles : Dict.t Article)
    : result (Dict.t Article) :=
  match items_ with
  | [] => Return current_articles
  | (url_, _) :: rest =>
      d <- memoize_step conn url_ current_articles ;;
      memoize_loop conn rest d
  end.

(** [[
def memoize_articles(source, articles):
    if len(articles) == 0:
        return []
    current_articles = {article.url: article for article in articles}
    for url, article in list(current_articles.items()):
        ...
    return list(current_articles.values())
]]
[source] is not used by the body and is left out. *)
Definition memoize_articles (conn : option connection)
    (articles : list Article) : result (list Article) :=
  if Nat.eqb (List.length articles) 0 then Return []
  else
    let current_articles := collapse articles in
    d <- memoize_loop conn (Dict.items current_articles) current_articles ;;
    Return (Dict.values d).

End Memoize.

Definition nfkc_id (s : str) : str := s.

Definition demo_store : connection :=
  [ {| id := 1; href := lit "example.com/a" |} ].

Definition cand (u h : string) : ParsingCandidate :=
  {| url := lit u; link_hash := lit h |}.

(** ** [timelimit] and the threads it starts

    Time is counted in ticks of the wall clock.  A call
    [function( *args, **kw)] is described by how long it runs and how it
    ends; a thread is the call it runs and the tick at which it started. *)

Module Threading.

Record operation := {
  op_time : option N;          (* [None]: the call never returns *)
  op_outcome : result obj
}.

Record thread := { started : N; body : operation }.

Record world := { now : N; threads : list thread }.

(** The tick at which the thread's [run] ends. *)
Definition finish (th : thread) : option N :=
  match op_time (body th) with
  | Some d => Some (started th + d)%N
  | None => None
  end.

(** [th.isAlive()] *)
Definition isAlive (w : world) (th : thread) : bool :=
  match finish th with
  | Some f => (now w <? f)%N
  | None => true
  end.

(** The attributes of a [Dispatch] object:
    [[
    def __init__(self):
        threading.Thread.__init__(self)
        self.result = None
        self.error = None
        self.setDaemon(True)
        self.start()

    def run(self):
        try:
            self.result = function( *args, **kw)
        except:
            self.error = sys.exc_info()
    ]]
    [error] holds the first two components of [sys.exc_info()]: the class
    of the exception and the exception. *)
Definition result_ (w : world) (th : thread) : obj :=
  if isAlive w th then ONone
  else match op_outcome (body th) with
       | Return v => v
       | Raise _ _ => ONone
       end.

Definition error (w : world) (th : thread) : option (exc_class * obj) :=
  if isAlive w th then None
  else match op_outcome (body th) with
       | Return _ => None
       | Raise cls args => Some (cls, OExc cls args)
       end.

(** [c = Dispatch()]: the constructor starts the thread. *)
Definition Dispatch (function : operation) (w : world) : thread * world :=
  let c := {| started := now w; body := function |} in
  (c, {| now := now w; threads := threads w ++ [c] |}).

(** [c.join(timeout)]: the caller sleeps until the thread has ended or
    [timeout] ticks have passed, whichever comes first. *)
Definition join (c : thread) (timeout : N) (w : world) : world :=
  let deadline := (now w + timeout)%N in
  let wake := match finish c with
              | Some f => N.min f deadline
              | None => deadline
              end in
  {| now := N.max (now w) wake; threads := threads w |}.

(** The clock moving on to tick [t]. *)
Definition advance (t : N) (w : world) : world :=
  {| now := N.max (now w) t; threads := threads w |}.

(** [class TimeoutError(Exception): pass] *)
Definition TimeoutError := {| cls_name := "TimeoutError"; cls_arity := None |}.

(** [[
def _2( *args, **kw):
    ...
    c = Dispatch()
    c.join(timeout)
    if c.isAlive():
        raise TimeoutError()
    if c.error:
        raise c.error[0](c.error[1])
    return c.result
]] *)
Definition timelimit (timeout : N) (function : operation) (w : world)
    : result obj * world :=
  let '(c, w) := Dispatch function w in
  let w := join c timeout w in
  if isAlive w c then (raise_ (new_exc TimeoutError []), w)
  else
    match error w c with
    | Some (ty, value) => (raise_ (new_exc ty [value]), w)
    | None => (Return (result_ w c), w)
    end.

End Threading.

Import Threading.

Definition w0 : world := {| now := 100; threads := [] |}.

(** ** Notions used in the statements *)

(** The longest prefix of [s] without a character satisfying [stop], and
    what follows it. *)
Fixpoint before (stop : char -> bool) (s : str) : str :=
  match s with
  | [] => []
  | x :: s' => if stop x then [] else x :: before stop s'
  end.

Fixpoint from (stop : char -> bool) (s : str) : str :=
  match s with
  | [] => []
  | x :: s' => if stop x then s else from stop s'
  end.

(** The characters that end a network location. *)
Definition is_delim (c : char) : bool := has_char c (lit "/?#").

(** What a parse says about the resource: scheme, host and path before the
    parameters are split off. *)
Definition host_path (r : result Urllib.ParseResult)
    : result (str * str * str) :=
  u <- r ;; Return (Urllib.scheme u, Urllib.netloc u, Urllib.path u).

(** The characters that open a query string or a fragment. *)
Definition opens_tail (x : char) : Prop := x = ord "#" \/ x = ord "?".

(** A result of [netloc_of] with text appended to the remaining URL. *)
Definition extend (o : result (str * str)) (t : str) : result (str * str) :=
  match o with
  | Return (n, q) => Return (n, q ++ t)
  | Raise cls args => Raise cls args
  end.

(** The content [RawHelper.get_parsing_candidate] is written for: text or
    bytes. *)
Definition is_content (raw_html : obj) : bool :=
  match raw_html with
  | OStr _ | OBytes _ => true
  | _ => false
  end.

(** The number of constructors of an object. *)
Fixpoint obj_size (o : obj) : nat :=
  match o with
  | OExc _ args => S (list_sum (map obj_size args))
  | _ => 1
  end.

(** A clock that counts whole ticks and prints them in decimal, and a
    checksum in place of MD5, to run the fingerprint functions on. *)
Definition decimal (n : N) : str :=
  lit (NilEmpty.string_of_uint (N.to_uint n)).

Definition checksum (data : list byte) : str :=
  decimal (fold_right (fun b acc => (Byte.to_N b + 31 * acc) mod 2 ^ 32)%N 0%N data).

(** ** The other helpers of the module *)

(** [[
def filename_to_domain(filename):
    return filename.replace('-', '/')[:-4]
]] *)
Definition filename_to_domain (filename : str) : str :=
  slice (replace filename (lit "-") (lit "/")) None (Some (-4)%Z).

(** [[
def is_ascii(word):
    def onlyascii(char):
        if ord(char) > 127:
            return ''
        else:
            return char
    for c in word:
        if not onlyascii(c):
            return False
    return True
]] *)
Definition onlyascii (c : char) : str :=
  if (127 <? c)%N then [] else [c].

Fixpoint is_ascii (word : str) : bool :=
  match word with
  | [] => true
  | c :: word' =>
      match onlyascii c with
      | [] => false
      | _ :: _ => is_ascii word'
      end
  end.

(** [[
def to_valid_filename(s):
    valid_chars = "-_.() %s%s" % (string.ascii_letters, string.digits)
    return ''.join(c for c in s if c in valid_chars)
]] *)
Definition ascii_letters : str :=
  lit "abcdefghijklmnopqrstuvwxyzABCDEFGHIJKLMNOPQRSTUVWXYZ".
Definition digits : str := lit "0123456789".
Definition valid_chars : str := lit "-_.() " ++ ascii_letters ++ digits.

Definition to_valid_filename (s : str) : str :=
  filter (fun c => has_char c valid_chars) s.

(** [StringReplacement] and [ReplaceSequence].  The argument of
    [replaceAll] may be [None]; [if not string] sends [None] and the empty
    string to the empty string. *)
Module StringReplacement.

Record t := { pattern : str; replaceWith : str }.

(** [[
def replaceAll(self, string):
    if not string:
        return ''
    return string.replace(self.pattern, self.replaceWith)
]] *)
Definition replaceAll (self : t) (string : option str) : str :=
  match string with
  | None | Some [] => []
  | Some s => replace s (pattern self) (replaceWith self)
  end.

End StringReplacement.

Module ReplaceSequence.

(** The object is its list [self.replacements]. *)
Definition t := list StringReplacement.t.

(** [ReplaceSequence()] *)
Definition new : t := [].

(** [[
def create(self, firstPattern, replaceWith=None):
    result = StringReplacement(firstPattern, replaceWith or '')
    self.replacements.append(result)
    return self
]] *)
Definition create (self : t) (firstPattern : str) (replaceWith : option str) : t :=
  self ++ [ {| StringReplacement.pattern := firstPattern;
               StringReplacement.replaceWith :=
                 match replaceWith with Some r => r | None => [] end |} ].

(** [[
def append(self, pattern, replaceWith=None):
    return self.create(pattern, replaceWith)
]] *)
Definition append (self : t) (pattern : str) (replaceWith : option str) : t :=
  create self pattern replaceWith.

(** [[
def replaceAll(self, string):
    if not string:
        return ''
    mutatedString = string
    for rp in self.replacements:
        mutatedString = rp.replaceAll(mutatedString)
    return mutatedString
]] *)
Definition replaceAll (self : t) (string : option str) : str :=
  match string with
  | None | Some [] => []
  | Some s =>
      fold_left (fun mutatedString rp =>
                   StringReplacement.replaceAll rp (Some mutatedString))
                self s
  end.

End ReplaceSequence.

Definition ZeroDivisionError :=
  {| cls_name := "ZeroDivisionError"; cls_arity := None |}.

Section Lists.

Variable A : Type.

(** [l[lo:hi]] on a list, as [slice] on a string. *)
Definition lslice (l : list A) (lo hi : option Z) : list A :=
  let n := Z.of_nat (List.length l) in
  let i := match lo with Some i => clip n i | None => 0%Z end in
  let j := match hi with Some j => clip n j | None => n end in
  firstn (Z.to_nat (j - i)) (skipn (Z.to_nat i) l).

(** [range(lo, hi)] *)
Definition range (lo hi : Z) : list Z :=
  map (fun k => (lo + Z.of_nat k)%Z) (seq 0 (Z.to_nat (hi - lo))).

(** [[
def chunks(l, n):
    newn = int(len(l) / n)
    for i in range(0, n - 1):
        yield l[i * newn:i * newn + newn]
    yield l[n * newn - newn:]
]]
The generator is run to its end and what it yields is collected.
[len(l) / n] is a float and [int] truncates it toward zero; for the
lengths a list can have that is the quotient [Z.quot]. *)
Definition chunks (l : list A) (n : Z) : result (list (list A)) :=
  if (n =? 0)%Z
  then Raise ZeroDivisionError [OStr (lit "division by zero")]
  else
    let newn := Z.quot (Z.of_nat (List.length l)) n in
    Return (map (fun i => lslice l (Some (i * newn)%Z) (Some (i * newn + newn)%Z))
                (range 0 (n - 1))
            ++ [lslice l (Some (n * newn - newn)%Z) None]).

End Lists.

Section Config.

(** A configuration object, seen as its attributes in a dictionary. *)
Variable V : Type.

(** [hasattr(config, key)] *)
Definition hasattr (config : Dict.t V) (key : str) : bool :=
  match Dict.get config key with
  | Some _ => true
  | None => false
  end.

(** [[
def extend_config(config, config_items):
    for key, val in list(config_items.items()):
        if hasattr(config, key):
            setattr(config, key, val)
    return config
]] *)
Definition extend_config (config : Dict.t V) (config_items : Dict.t V)
    : Dict.t V :=
  fold_left (fun config kv =>
               if hasattr config (fst kv)
               then Dict.set config (fst kv) (snd kv)
               else config)
            (Dict.items config_items) config.

End Config.

(** * Properties *)

(** ** Runs on concrete inputs *)

Example dtf1 : domain_to_filename (lit "cnn.com/world/") = Return (lit "cnn.com-world.txt").
Proof. reflexivity. Qed.

Example final_url1 :
  final_url (lit "http://example.com/#!/page")
  = lit "http://example.com/?_escaped_fragment_=/page".
Proof. reflexivity. Qed.

Example enc1 : encode_utf8_replace [0x41; 0xE9; 0xD800; 0x20AC; 0x1F600]%N
  = [x41; xc3; xa9; x3f; xe2; x82; xac; xf0; x9f; x98; x80].
Proof. reflexivity. Qed.

Example urlparse1 :
  Urllib.urlparse (fun s => s) (lit "http://example.com/a;p?x=1#frag")
  = Return {| Urllib.scheme := lit "http"; Urllib.netloc := lit "example.com";
              Urllib.path := lit "/a"; Urllib.params := lit "p";
              Urllib.query := lit "x=1"; Urllib.fragment := lit "frag" |}.
Proof. reflexivity. Qed.

Example urlparse2 :
  Urllib.urlparse (fun s => s) (lit "HTTPS://User@Example.com:80/a/b;p/c#!/x?y")
  = Return {| Urllib.scheme := lit "https"; Urllib.netloc := lit "User@Example.com:80";
              Urllib.path := lit "/a/b;p/c"; Urllib.params := lit "";
              Urllib.query := lit ""; Urllib.fragment := lit "!/x?y" |}.
Proof. reflexivity. Qed.

Example urlparse3 :
  Urllib.urlparse (fun s => s) (lit "localhost:8080")
  = Return {| Urllib.scheme := lit ""; Urllib.netloc := lit "";
              Urllib.path := lit "localhost:8080"; Urllib.params := lit "";
              Urllib.query := lit ""; Urllib.fragment := lit "" |}.
Proof. reflexivity. Qed.

Example urlparse4 :
  Urllib.urlparse (fun s => s) (lit "http://[::1/x") = Urllib.invalid_ipv6.
Proof. reflexivity. Qed.

Example memo1 :
  memoize_articles nfkc_id url (Some demo_store)
    [cand "http://example.com/a?x=1#f" "h1"; cand "http://example.com/b" "h2";
     cand "http://example.com/c" "h3"; cand "http://example.com/b" "h4"]
  = Return [cand "http://example.com/b" "h4"; cand "http://example.com/c" "h3"].
Proof. reflexivity. Qed.

Example memo2 :
  memoize_articles nfkc_id url None [cand "http://example.com/b" "h2"]
  = no_cursor.
Proof. reflexivity. Qed.

Example tl_ok :
  fst (timelimit 10 {| op_time := Some 3%N; op_outcome := Return (OInt 7) |} w0)
  = Return (OInt 7).
Proof. reflexivity. Qed.

Example tl_timeout :
  timelimit 10 {| op_time := Some 30%N; op_outcome := Return (OInt 7) |} w0
  = (Raise TimeoutError [],
     {| now := 110;
        threads := [ {| started := 100;
                        body := {| op_time := Some 30%N;
                                   op_outcome := Return (OInt 7) |} |} ] |}).
Proof. reflexivity. Qed.

Example tl_error :
  fst (timelimit 10 {| op_time := Some 3%N;
                       op_outcome := Raise ValueError [OStr (lit "bad")] |} w0)
  = Raise ValueError [OExc ValueError [OStr (lit "bad")]].
Proof. reflexivity. Qed.

Example tl_error5 :
  fst (timelimit 10
         {| op_time := Some 3%N;
            op_outcome := Raise UnicodeDecodeError
                            [OStr (lit "utf-8"); OBytes [xff]; OInt 0; OInt 1;
                             OStr (lit "invalid start byte")] |} w0)
  = Raise TypeError [OStr (lit "function takes exactly n arguments")].
Proof. reflexivity. Qed.

(** ** Strings *)

Lemma str_eqb_eq (a b : str) : str_eqb a b = true <-> a = b.
Proof.
  revert b; induction a as [|x a IH]; intros [|y b]; simpl;
    try (split; (discriminate || reflexivity)).
  rewrite andb_true_iff, N.eqb_eq, IH.
  split; [intros [-> ->]; reflexivity | intros [= -> ->]; auto].
Qed.

Lemma str_eqb_refl (a : str) : str_eqb a a = true.
Proof. apply str_eqb_eq; reflexivity. Qed.

Lemma str_eqb_neq (a b : str) : str_eqb a b = false <-> a <> b.
Proof.
  rewrite <- str_eqb_eq. destruct (str_eqb a b); split; congruence.
Qed.

Lemma str_eqb_sym (a b : str) : str_eqb a b = str_eqb b a.
Proof.
  destruct (str_eqb a b) eqn:E.
  - apply str_eqb_eq in E; subst; symmetry; apply str_eqb_refl.
  - symmetry; apply str_eqb_neq; apply str_eqb_neq in E; congruence.
Qed.

Lemma has_char_true (c : char) (s : str) : has_char c s = true <-> In c s.
Proof.
  unfold has_char; rewrite existsb_exists; split.
  - intros (x & Hx & E); apply N.eqb_eq in E; subst; assumption.
  - intros H; exists c; split; [assumption | apply N.eqb_refl].
Qed.

Lemma has_char_false (c : char) (s : str) : has_char c s = false <-> ~ In c s.
Proof.
  rewrite <- has_char_true; destruct (has_char c s); split; congruence.
Qed.

Lemma lit_inj (a b : string) : lit a = lit b -> a = b.
Proof.
  unfold lit; intros H.
  rewrite <- (string_of_list_ascii_of_string a),
          <- (string_of_list_ascii_of_string b).
  f_equal.
  revert H; generalize (list_ascii_of_string a) (list_ascii_of_string b).
  induction l as [|x l IH]; intros [|y l']; simpl; try discriminate; auto.
  intros [= Hxy Hl]; f_equal; [|auto].
  rewrite <- (ascii_N_embedding x), <- (ascii_N_embedding y), Hxy; reflexivity.
Qed.

(** ** Dictionaries *)

Section DictFacts.

Variable V : Type.
Implicit Types (d : Dict.t V) (k : str) (v : V).

Lemma get_set_same d k v : Dict.get (Dict.set d k v) k = Some v.
Proof.
  induction d as [|[k' v'] d IH]; simpl.
  - rewrite str_eqb_refl; reflexivity.
  - destruct (str_eqb k' k) eqn:E; simpl; rewrite E; auto.
Qed.

Lemma get_set_other d k k' v :
  k <> k' -> Dict.get (Dict.set d k v) k' = Dict.get d k'.
Proof.
  intros Hne; induction d as [|[k0 v0] d IH]; simpl.
  - apply str_eqb_neq in Hne; rewrite Hne; reflexivity.
  - destruct (str_eqb k0 k) eqn:E; simpl.
    + apply str_eqb_eq in E; subst k0.
      apply str_eqb_neq in Hne; rewrite Hne; reflexivity.
    + rewrite IH; reflexivity.
Qed.

Lemma keys_set d k v :
  Dict.keys (Dict.set d k v)
  = if existsb (str_eqb k) (Dict.keys d) then Dict.keys d
    else Dict.keys d ++ [k].
Proof.
  induction d as [|[k' v'] d IH]; simpl; [reflexivity|].
  rewrite (str_eqb_sym k k').
  destruct (str_eqb k' k) eqn:E; simpl; [reflexivity|].
  fold (Dict.keys (Dict.set d k v)); rewrite IH.
  destruct (existsb _ _); reflexivity.
Qed.

Lemma existsb_str_eqb k (l : list str) :
  existsb (str_eqb k) l = true <-> In k l.
Proof.
  rewrite existsb_exists; split.
  - intros (x & Hx & E); apply str_eqb_eq in E; subst; assumption.
  - intros H; exists k; split; [assumption | apply str_eqb_refl].
Qed.

Lemma keys_set_NoDup d k v :
  NoDup (Dict.keys d) -> NoDup (Dict.keys (Dict.set d k v)).
Proof.
  intros H; rewrite keys_set.
  destruct (existsb (str_eqb k) (Dict.keys d)) eqn:E; [assumption|].
  apply NoDup_app; [assumption | repeat constructor; intros [] | ].
  intros x Hx [<-|[]].
  apply existsb_str_eqb in Hx; congruence.
Qed.

Lemma get_In d k v : Dict.get d k = Some v -> In (k, v) d.
Proof.
  induction d as [|[k' v'] d IH]; simpl; [discriminate|].
  destruct (str_eqb k' k) eqn:E.
  - apply str_eqb_eq in E; intros [= ->]; subst; left; reflexivity.
  - intros H; right; auto.
Qed.

Lemma In_get d k v :
  NoDup (Dict.keys d) -> In (k, v) d -> Dict.get d k = Some v.
Proof.
  induction d as [|[k' v'] d IH]; simpl; [intros _ []|].
  intros Hnd [[= -> ->]|Hin].
  - rewrite str_eqb_refl; reflexivity.
  - inversion Hnd as [|? ? Hk Hnd']; subst.
    destruct (str_eqb k' k) eqn:E.
    + apply str_eqb_eq in E; subst k'.
      exfalso; apply Hk. apply (in_map fst) in Hin; exact Hin.
    + auto.
Qed.

(** On a dictionary, [del d[k]] succeeds exactly when [k] is a key, and
    removes the entry of [k] and nothing else. *)
Lemma del_spec d k :
  NoDup (Dict.keys d) -> In k (Dict.keys d) ->
  Dict.del d k
  = Return (filter (fun kv => negb (str_eqb (fst kv) k)) d).
Proof.
  induction d as [|[k' v'] d IH]; simpl; [intros _ []|].
  intros Hnd Hin; inversion Hnd as [|? ? Hk Hnd']; subst.
  destruct (str_eqb k' k) eqn:E; simpl.
  - apply str_eqb_eq in E; subst k'. f_equal.
    symmetry; apply forallb_filter_id, forallb_forall.
    intros [k1 v1] H1; simpl.
    apply negb_true_iff, str_eqb_neq; intros ->.
    apply Hk; apply (in_map fst) in H1; exact H1.
  - destruct Hin as [->|Hin]; [rewrite str_eqb_refl in E; discriminate|].
    rewrite (IH Hnd' Hin); reflexivity.
Qed.

Lemma keys_filter_NoDup d (f : str * V -> bool) :
  NoDup (Dict.keys d) -> NoDup (Dict.keys (filter f d)).
Proof.
  induction d as [|[k v] d IH]; simpl; [auto|].
  intros Hnd; inversion Hnd as [|? ? Hk Hnd']; subst.
  destruct (f (k, v)); simpl; [constructor|]; auto.
  intros Hin; apply Hk.
  unfold Dict.keys in *; apply in_map_iff in Hin as ([k1 v1] & <- & H1).
  apply filter_In in H1 as [H1 _]. apply (in_map fst) in H1; exact H1.
Qed.

End DictFacts.

(** ** The de-duplicator *)

Section MemoizeFacts.

Variable nfkc : str -> str.
Variable Article : Type.
Variable article_url : Article -> str.


Lemma collapse_snoc l a :
  collapse article_url (l ++ [a]) = Dict.set (collapse article_url l) (article_url a) a.
Proof. unfold collapse; rewrite fold_left_app; reflexivity. Qed.

Lemma collapse_keys_NoDup l : NoDup (Dict.keys (collapse article_url l)).
Proof.
  induction l as [|a l IH] using rev_ind; [constructor|].
  rewrite collapse_snoc; apply keys_set_NoDup; assumption.
Qed.

(** The entry of a key is the last item of the batch with that URL. *)
Lemma collapse_get l k :
  Dict.get (collapse article_url l) k
  = List.find (fun a => str_eqb (article_url a) k) (rev l).
Proof.
  induction l as [|a l IH] using rev_ind; [reflexivity|].
  rewrite collapse_snoc, rev_app_distr; simpl.
  destruct (str_eqb (article_url a) k) eqn:E.
  - apply str_eqb_eq in E; subst k; apply get_set_same.
  - apply str_eqb_neq in E; rewrite get_set_other; auto.
Qed.

Lemma In_set (d : Dict.t Article) k v k0 v0 :
  In (k, v) (Dict.set d k0 v0) -> (k, v) = (k0, v0) \/ In (k, v) d.
Proof.
  induction d as [|[k' v'] d IH]; simpl.
  - intros [H|[]]; left; congruence.
  - destruct (str_eqb k' k0) eqn:E; simpl.
    + apply str_eqb_eq in E; subst k'.
      intros [H|H]; [left; congruence | right; right; assumption].
    + intros [H|H]; [right; left; assumption|].
      destruct (IH H); [left | right; right]; assumption.
Qed.

Lemma collapse_entry l k v :
  In (k, v) (collapse article_url l) -> article_url v = k /\ In v l.
Proof.
  induction l as [|a l IH] using rev_ind; [intros []|].
  rewrite collapse_snoc; intros H.
  apply In_set in H as [[= -> ->]|H].
  - split; [reflexivity | apply in_or_app; right; left; reflexivity].
  - destruct (IH H); split; [assumption | apply in_or_app; left; assumption].
Qed.

Lemma collapse_nonempty a l : collapse article_url (a :: l) <> [].
Proof.
  assert (Hset : forall (d : Dict.t Article) k v, Dict.set d k v <> []).
  { intros [|[k' v'] d] k v; simpl; [discriminate|].
    destruct (str_eqb k' k); discriminate. }
  unfold collapse; simpl.
  assert (Hd : [(article_url a, a)] <> []) by discriminate.
  revert Hd; generalize ([(article_url a, a)] : Dict.t Article).
  induction l as [|b l IH]; simpl; intros d Hd; [assumption|].
  apply IH, Hset.
Qed.

(** Deleting only ever removes entries. *)
Lemma del_incl (d d' : Dict.t Article) k :
  Dict.del d k = Return d' -> incl d' d /\
  (NoDup (Dict.keys d) -> NoDup (Dict.keys d')).
Proof.
  revert d'; induction d as [|[k' v'] d IH]; simpl; [discriminate|].
  intros d'; destruct (str_eqb k' k).
  - intros [= <-]; split; [apply incl_tl, incl_refl|].
    intros H; inversion H; assumption.
  - destruct (Dict.del d k) as [d''|] eqn:E; simpl; [|discriminate].
    intros [= <-]; destruct (IH _ eq_refl) as [Hi Hn]; split.
    + apply incl_cons; [left; reflexivity | apply incl_tl; assumption].
    + intros H; inversion H as [|? ? Hk Hnd]; subst; simpl.
      constructor; [|auto].
      intros Hin; apply Hk.
      unfold Dict.keys in *; apply in_map_iff in Hin as (kv & <- & H1).
      apply in_map, Hi, H1.
Qed.

Lemma memoize_loop_incl conn its (cur d : Dict.t Article) :
  memoize_loop nfkc conn its cur = Return d ->
  incl d cur /\ (NoDup (Dict.keys cur) -> NoDup (Dict.keys d)).
Proof.
  revert cur; induction its as [|[k v] its IH]; simpl; intros cur.
  - intros [= <-]; split; [apply incl_refl | auto].
  - unfold memoize_step.
    destruct (cursor conn) as [c|]; simpl; [|discriminate].
    destruct (href_of nfkc k) as [h|]; simpl; [|discriminate].
    destruct (fetchone_id c h).
    + destruct (Dict.del cur k) as [cur'|] eqn:E; simpl; [|discriminate].
      intros H; apply IH in H as [Hi Hn].
      apply del_incl in E as [Hi' Hn'].
      split; [eapply incl_tran; eassumption | auto].
    + simpl; apply IH.
Qed.

Lemma filter_twice (A : Type) (f g : A -> bool) (l : list A) :
  filter f (filter g l) = filter (fun x => g x && f x) l.
Proof.
  induction l as [|x l IH]; simpl; [reflexivity|].
  destruct (g x); simpl; [destruct (f x)|]; rewrite IH; reflexivity.
Qed.

Lemma memoize_loop_spec db its (cur : Dict.t Article) :
  NoDup (Dict.keys its) -> incl (Dict.keys its) (Dict.keys cur) ->
  NoDup (Dict.keys cur) ->
  (forall k, In k (Dict.keys its) -> exists h, href_of nfkc k = Return h) ->
  memoize_loop nfkc (Some db) its cur
  = Return (filter (fun kv =>
              negb (existsb (fun k => str_eqb (fst kv) k && seen nfkc db k)
                            (Dict.keys its))) cur).
Proof.
  revert cur; induction its as [|[k v] its IH]; simpl; intros cur Hnd Hin Hc Hp.
  - f_equal; symmetry; apply forallb_filter_id, forallb_forall; reflexivity.
  - inversion Hnd as [|? ? Hk Hnd']; subst.
    unfold memoize_step; simpl.
    destruct (Hp k (or_introl eq_refl)) as [h Hh].
    assert (Hseen : seen nfkc db k
                    = match fetchone_id db h with Some _ => true | None => false end)
      by (unfold seen; rewrite Hh; reflexivity).
    rewrite Hh; simpl.
    destruct (fetchone_id db h).
    + rewrite del_spec by (auto; apply Hin; left; reflexivity); simpl.
      rewrite IH; auto.
      * f_equal. rewrite filter_twice. apply filter_ext; intros [k1 v1]; simpl.
        rewrite Hseen, andb_true_r, negb_orb; reflexivity.
      * intros x Hx. unfold Dict.keys. apply in_map_iff.
        assert (Hx' : In x (Dict.keys cur)) by (apply Hin; right; exact Hx).
        apply in_map_iff in Hx' as ([k1 v1] & <- & H1).
        exists (k1, v1); split; [reflexivity|].
        apply filter_In; split; [assumption|]; simpl.
        apply negb_true_iff, str_eqb_neq; intros ->; auto.
      * apply keys_filter_NoDup; assumption.
    + cbn [bind]; rewrite IH; auto.
      * f_equal; apply filter_ext; intros [k1 v1]; simpl.
        rewrite Hseen, andb_false_r; reflexivity.
      * intros x Hx; apply Hin; right; exact Hx.
Qed.

Lemma fetchone_id_In db h :
  fetchone_id db h = None <-> ~ In h (map href db).
Proof.
  unfold fetchone_id; induction db as [|r db IH]; simpl; [tauto|].
  destruct (str_eqb (href r) h) eqn:E.
  - apply str_eqb_eq in E; split; [discriminate | intros H; exfalso; auto].
  - apply str_eqb_neq in E; rewrite IH; tauto.
Qed.

Lemma values_url_keys (d : Dict.t Article) :
  (forall k v, In (k, v) d -> article_url v = k) ->
  map article_url (Dict.values d) = Dict.keys d.
Proof.
  intros H; unfold Dict.values, Dict.keys; rewrite map_map.
  apply map_ext_in; intros [k v] Hin; simpl; auto.
Qed.

(** C6: when an item [a] of the batch is followed by no item with the same
    URL, the collapsed batch maps that URL to [a], and [a] is the only
    item with that URL that is kept: every earlier occurrence is gone. *)
Theorem collapse_keeps_last (l1 l2 : list Article) (a : Article) :
  (forall b, In b l2 -> article_url b <> article_url a) ->
  let d := collapse article_url (l1 ++ a :: l2) in
  Dict.get d (article_url a) = Some a /\
  In a (Dict.values d) /\
  (forall b, In b (Dict.values d) -> article_url b = article_url a -> b = a) /\
  NoDup (Dict.keys d).
Proof.
  intros Hlast d.
  assert (Hget : Dict.get d (article_url a) = Some a).
  { unfold d; rewrite collapse_get, rev_app_distr; simpl.
    rewrite <- app_assoc; simpl.
    assert (Hnone : forall l, (forall b, In b l -> article_url b <> article_url a) ->
              forall l', List.find (fun x => str_eqb (article_url x) (article_url a)) (l ++ l')
                         = List.find (fun x => str_eqb (article_url x) (article_url a)) l').
    { induction l as [|x l IH]; simpl; intros Hl l'; [reflexivity|].
      assert (E : str_eqb (article_url x) (article_url a) = false)
        by (apply str_eqb_neq, Hl; left; reflexivity).
      rewrite E; apply IH; intros b Hb; apply Hl; right; exact Hb. }
    rewrite Hnone; simpl.
    - rewrite str_eqb_refl; reflexivity.
    - intros b Hb; apply Hlast, in_rev; exact Hb. }
  assert (Hnd : NoDup (Dict.keys d)) by apply collapse_keys_NoDup.
  repeat split; auto.
  - apply get_In in Hget. apply (in_map snd) in Hget; exact Hget.
  - intros b Hb Hurl.
    apply in_map_iff in Hb as ([k v] & Hv & Hin); simpl in Hv; subst v.
    destruct (collapse_entry _ _ _ Hin) as [Hk _].
    rewrite Hurl in Hk; subst k.
    apply In_get in Hin; [congruence | assumption].
Qed.

(** C9: whatever the batch and the store handle, a batch that
    [memoize_articles] returns holds items of the input batch only, as they
    were given, and no two of them have the same URL. *)
Theorem memoize_articles_output_sound conn (articles out : list Article) :
  memoize_articles nfkc article_url conn articles = Return out ->
  incl out articles /\ NoDup (map article_url out).
Proof.
  unfold memoize_articles.
  destruct (Nat.eqb (List.length articles) 0).
  - intros [= <-]; split; [intros x [] | constructor].
  - destruct (memoize_loop nfkc conn _ _) as [d|] eqn:E; simpl; [|discriminate].
    intros [= <-].
    apply memoize_loop_incl in E as [Hi Hn].
    assert (Hent : forall k v, In (k, v) d -> article_url v = k /\ In v articles)
      by (intros k v H; apply collapse_entry, Hi, H).
    split.
    + intros v Hv. apply in_map_iff in Hv as ([k v'] & <- & Hin).
      apply (Hent _ _ Hin).
    + rewrite values_url_keys by (intros k v H; apply (Hent _ _ H)).
      apply Hn, collapse_keys_NoDup.
Qed.

(** C7: with an open store handle and a batch whose URLs all parse,
    [memoize_articles] returns, and an item is in its result exactly when
    it survived the collapse by URL and the store has no row whose [href]
    is the host followed by the path of the item's URL.  The query string
    and the fragment of the URL play no part. *)
Theorem memoize_articles_filters_on_host_path
    (db : connection) (articles : list Article) :
  (forall a, In a articles ->
             exists u, Urllib.urlparse nfkc (article_url a) = Return u) ->
  exists out,
    memoize_articles nfkc article_url (Some db) articles = Return out /\
    forall a u,
      Urllib.urlparse nfkc (article_url a) = Return u ->
      (In a out <->
       In a (Dict.values (collapse article_url articles)) /\
       ~ In (Urllib.netloc u ++ Urllib.path u) (map href db)).
Proof.
  intros Hparse. unfold memoize_articles.
  destruct articles as [|a0 l]; simpl Nat.eqb; cbv iota.
  - exists []; split; [reflexivity|]. intros a u _; simpl; tauto.
  - set (arts := a0 :: l) in *.
    set (cur := collapse article_url arts).
    assert (Hnd : NoDup (Dict.keys cur)) by apply collapse_keys_NoDup.
    assert (Hkeys : forall k, In k (Dict.keys cur) ->
                      exists v, In (k, v) cur /\ article_url v = k /\ In v arts).
    { intros k Hk. apply in_map_iff in Hk as ([k' v] & <- & Hin).
      exists v; split; [assumption | apply collapse_entry, Hin]. }
    rewrite memoize_loop_spec; auto using incl_refl.
    2:{ intros k Hk. destruct (Hkeys k Hk) as (v & _ & <- & Hv).
        destruct (Hparse v Hv) as [u Hu].
        exists (Urllib.netloc u ++ Urllib.path u).
        unfold href_of; rewrite Hu; reflexivity. }
    cbn [bind]. eexists; split; [reflexivity|].
    intros a u Hu.
    assert (Hseen : seen nfkc db (article_url a) = false <->
                    ~ In (Urllib.netloc u ++ Urllib.path u) (map href db)).
    { unfold seen, href_of; rewrite Hu; cbn [bind].
      rewrite <- fetchone_id_In.
      destruct (fetchone_id db _); split; congruence. }
    rewrite <- Hseen.
    assert (Hf : forall k, In k (Dict.keys cur) ->
              existsb (fun k' => str_eqb k k' && seen nfkc db k') (Dict.keys cur)
              = seen nfkc db k).
    { intros k Hk. destruct (seen nfkc db k) eqn:Es.
      - apply existsb_exists; exists k; split; [assumption|].
        rewrite str_eqb_refl, Es; reflexivity.
      - destruct (existsb _ _) eqn:Ex; [|reflexivity].
        apply existsb_exists in Ex as (k' & _ & Hk').
        apply andb_true_iff in Hk' as [Heq Hs].
        apply str_eqb_eq in Heq; subst k'; congruence. }
    unfold Dict.values, Dict.items; split.
    + intros Hin. apply in_map_iff in Hin as ([k v] & Hv & Hin); simpl in Hv; subst v.
      apply filter_In in Hin as [Hin Hkeep]; simpl in Hkeep.
      destruct (collapse_entry _ _ _ Hin) as [Hk _]; subst k.
      rewrite Hf in Hkeep by (apply (in_map fst) in Hin; exact Hin).
      split; [apply (in_map snd) in Hin; exact Hin|].
      apply negb_true_iff; exact Hkeep.
    + intros [Hin Hs]. apply in_map_iff in Hin as ([k v] & Hv & Hin); simpl in Hv; subst v.
      destruct (collapse_entry _ _ _ Hin) as [Hk _]; subst k.
      apply in_map_iff; exists (article_url a, a); split; [reflexivity|].
      apply filter_In; split; [assumption|]; simpl.
      rewrite Hf by (apply (in_map fst) in Hin; exact Hin).
      apply negb_true_iff; exact Hs.
Qed.

(** An empty batch is answered without touching the store handle. *)
Lemma memoize_articles_empty conn :
  memoize_articles nfkc article_url conn [] = Return [].
Proof. reflexivity. Qed.

(** C3: with a null store handle, a call on a non-empty batch ends in the
    [AttributeError] of [None.cursor]. *)
Theorem memoize_articles_null_handle (a : Article) (l : list Article) :
  memoize_articles nfkc article_url None (a :: l)
  = Raise AttributeError
      [OStr (lit "'NoneType' object has no attribute 'cursor'")].
Proof.
  unfold memoize_articles; simpl Nat.eqb; cbv iota.
  pose proof (collapse_nonempty a l) as Hne.
  destruct (collapse article_url (a :: l)) as [|[k v] d]; [congruence|].
  reflexivity.
Qed.

End MemoizeFacts.

(** ** Searching and slicing *)

Lemma firstn_min (A : Type) (n : nat) (l : list A) :
  firstn (Nat.min (List.length l) n) l = firstn n l.
Proof.
  destruct (Nat.le_gt_cases n (List.length l)).
  - rewrite Nat.min_r by assumption; reflexivity.
  - rewrite Nat.min_l by lia.
    rewrite !firstn_all2 by lia; reflexivity.
Qed.

(** [s[:i]] for [i >= 0] *)
Lemma slice_to (s : str) (i : Z) :
  (0 <= i)%Z -> slice s None (Some i) = firstn (Z.to_nat i) s.
Proof.
  intros Hi; unfold slice, clip; simpl.
  destruct (Z.ltb_spec i 0); [lia|].
  rewrite Z.sub_0_r, <- (firstn_min (Z.to_nat i) s); f_equal; lia.
Qed.

(** [s[i:]] for [i >= 0] *)
Lemma slice_from (s : str) (i : Z) :
  (0 <= i)%Z -> slice s (Some i) None = skipn (Z.to_nat i) s.
Proof.
  intros Hi; unfold slice, clip.
  destruct (Z.ltb_spec i 0); [lia|].
  destruct (Z.le_gt_cases i (Z.of_nat (List.length s))).
  - replace (Z.to_nat (Z.max 0 (Z.min (Z.of_nat (List.length s)) i)))
      with (Z.to_nat i) by lia.
    apply firstn_all2. rewrite length_skipn; lia.
  - rewrite (skipn_all2 (n := Z.to_nat i)) by lia.
    rewrite skipn_all2 by lia. apply firstn_nil.
Qed.

(** [s[i:j]] for [0 <= i <= j] *)
Lemma slice_mid (s : str) (i j : Z) :
  (0 <= i <= j)%Z ->
  slice s (Some i) (Some j) = firstn (Z.to_nat (j - i)) (skipn (Z.to_nat i) s).
Proof.
  intros Hij; unfold slice, clip.
  destruct (Z.ltb_spec i 0); [lia|]. destruct (Z.ltb_spec j 0); [lia|].
  destruct (Z.le_gt_cases i (Z.of_nat (List.length s))).
  - replace (Z.to_nat (Z.max 0 (Z.min (Z.of_nat (List.length s)) i)))
      with (Z.to_nat i) by lia.
    rewrite <- (firstn_min (Z.to_nat (j - i))). f_equal.
    rewrite length_skipn; lia.
  - rewrite (skipn_all2 (n := Z.to_nat i)) by lia.
    rewrite skipn_all2 by lia. rewrite !firstn_nil; reflexivity.
Qed.

Lemma find_at_range (c : char) (s : str) (p : Z) :
  find_at c s p = (-1)%Z /\ ~ In c s \/
  (p <= find_at c s p < p + Z.of_nat (List.length s))%Z /\ In c s.
Proof.
  revert p; induction s as [|x s IH]; intros p; simpl; [left; tauto|].
  destruct (N.eqb_spec x c) as [->|Hne].
  - right; split; [lia | left; reflexivity].
  - destruct (IH (p + 1)%Z) as [[-> Hn]|[Hr Hi]].
    + left; split; [reflexivity | intros [H|H]; auto].
    + right; split; [lia | right; assumption].
Qed.

(** The first occurrence of a character that occurs. *)
Lemma first_occurrence (c : char) (s : str) :
  In c s -> exists a b, s = a ++ c :: b /\ ~ In c a.
Proof.
  induction s as [|x s IH]; [intros []|].
  destruct (N.eq_dec x c) as [->|Hne].
  - intros _; exists [], s; split; [reflexivity | intros []].
  - intros [H|H]; [contradiction|].
    destruct (IH H) as (a & b & -> & Ha).
    exists (x :: a), b; split; [reflexivity | intros [E|E]; auto].
Qed.

Lemma find_at_first (c : char) (a b : str) (p : Z) :
  ~ In c a -> find_at c (a ++ c :: b) p = (p + Z.of_nat (List.length a))%Z.
Proof.
  revert p; induction a as [|x a IH]; intros p Hn; simpl.
  - rewrite N.eqb_refl; lia.
  - destruct (N.eqb_spec x c) as [->|Hne]; [exfalso; apply Hn; left; reflexivity|].
    rewrite IH by (intros H; apply Hn; right; exact H). lia.
Qed.

(** Past a prefix without [c] that ends in another character, [c] is found
    beyond that character or not at all. *)
Lemma find_at_beyond (c x : char) (a r : str) (p : Z) :
  ~ In c a -> x <> c ->
  find_at c (a ++ x :: r) p = (-1)%Z \/
  (p + Z.of_nat (List.length a) < find_at c (a ++ x :: r) p)%Z.
Proof.
  revert p; induction a as [|y a IH]; intros p Hn Hx; simpl.
  - destruct (N.eqb_spec x c); [contradiction|].
    destruct (find_at_range c r (p + 1)) as [[-> _]|[Hr _]]; [left; reflexivity | right; lia].
  - destruct (N.eqb_spec y c) as [->|Hne]; [exfalso; apply Hn; left; reflexivity|].
    destruct (IH (p + 1)%Z) as [->|H]; auto; [intros H; apply Hn; right; exact H|].
    right; lia.
Qed.

(** ** [str.replace] *)

Lemma startswith_app (p s : str) :
  startswith p s = true -> exists b, s = p ++ b.
Proof.
  revert s; induction p as [|x p IH]; intros s; simpl; [exists s; reflexivity|].
  destruct s as [|y s]; [discriminate|].
  intros H; apply andb_true_iff in H as [E H]; apply N.eqb_eq in E; subst y.
  destruct (IH _ H) as [b ->]; exists b; reflexivity.
Qed.



(** ** [urlparse]: what lies past the first '#' or '?' *)

Import Urllib.

Lemma before_from (stop : char -> bool) (s : str) :
  s = before stop s ++ from stop s.
Proof.
  induction s as [|x s IH]; simpl; [reflexivity|].
  destruct (stop x); simpl; [reflexivity | f_equal; exact IH].
Qed.

Lemma before_app_stop (stop : char -> bool) (q r : str) (x : char) :
  stop x = true ->
  before stop (q ++ x :: r) = before stop q /\
  from stop (q ++ x :: r) = from stop q ++ x :: r.
Proof.
  intros Hx; induction q as [|y q [IH1 IH2]]; simpl.
  - rewrite Hx; split; reflexivity.
  - destruct (stop y); simpl; [split; reflexivity|].
    rewrite IH1, IH2; split; reflexivity.
Qed.

(** The [delim] that [_splitnetloc] computes is the position of the first
    of the characters '/', '?' and '#'. *)
Lemma delim_spec (t : str) (p : Z) :
  (0 <= p)%Z ->
  fold_left (fun delim c =>
               let wdelim := find_at c t p in
               if (0 <=? wdelim)%Z then Z.min delim wdelim else delim)
            (lit "/?#") (p + Z.of_nat (List.length t))%Z
  = (p + Z.of_nat (List.length (before is_delim t)))%Z.
Proof.
  change (lit "/?#") with [47; 63; 35]%N.
  revert p; induction t as [|y t IH]; intros p Hp; [reflexivity|].
  specialize (IH (p + 1)%Z ltac:(lia)).
  unfold is_delim in *. change (lit "/?#") with [47; 63; 35]%N in *.
  cbn [fold_left before has_char existsb find_at] in *.
  destruct (find_at_range 47%N t (p + 1)) as [[E1 _]|[E1 _]];
  destruct (find_at_range 63%N t (p + 1)) as [[E2 _]|[E2 _]];
  destruct (find_at_range 35%N t (p + 1)) as [[E3 _]|[E3 _]];
  revert IH E1 E2 E3;
  generalize (find_at 47%N t (p + 1)) (find_at 63%N t (p + 1))
             (find_at 35%N t (p + 1));
  intros f1 f2 f3 IH E1 E2 E3;
  destruct (N.eqb y 47), (N.eqb y 63), (N.eqb y 35); cbn [orb List.length];
  repeat match goal with
         | |- context [(0 <=? ?z)%Z] => destruct (Z.leb_spec 0 z)
         | H : context [(0 <=? ?z)%Z] |- _ => destruct (Z.leb_spec 0 z)
         end; lia.
Qed.

Lemma splitnetloc_spec (c1 c2 : char) (t : str) :
  _splitnetloc (c1 :: c2 :: t) 2 = (before is_delim t, from is_delim t).
Proof.
  unfold _splitnetloc, find. cbn [skipn]. cbv zeta.
  change (Z.of_nat 2) with 2%Z.
  replace (Z.of_nat (List.length (c1 :: c2 :: t)))
    with (2 + Z.of_nat (List.length t))%Z by (cbn [List.length]; lia).
  pose proof (delim_spec t (p := 2) ltac:(lia)) as D; cbv zeta in D; rewrite D.
  rewrite slice_mid, slice_from by lia.
  replace (Z.to_nat (2 + Z.of_nat (List.length (before is_delim t)) - 2))
    with (List.length (before is_delim t)) by lia.
  replace (Z.to_nat (2 + Z.of_nat (List.length (before is_delim t))))
    with (S (S (List.length (before is_delim t)))) by lia.
  change (Z.to_nat 2) with 2%nat. cbn [skipn].
  rewrite (before_from is_delim t) at 2 4.
  rewrite firstn_app, Nat.sub_diag, firstn_all, skipn_app, Nat.sub_diag, skipn_all.
  cbn [firstn skipn]. rewrite app_nil_r; reflexivity.
Qed.

Lemma opens_tail_cases (P : char -> Prop) (x : char) :
  opens_tail x -> P (ord "#") -> P (ord "?") -> P x.
Proof. intros [-> | ->]; auto. Qed.

Section Cut.

Variable nfkc : str -> str.

Lemma netloc_of_cut (p : str) :
  exists o, forall x r, opens_tail x ->
    netloc_of (p ++ x :: r) = extend o (x :: r).
Proof.
  unfold netloc_of.
  destruct p as [|c1 [|c2 t]].
  - exists (Return ([], [])); intros x r Hx.
    rewrite slice_to by lia.
    change (firstn (Z.to_nat 2) ([] ++ x :: r)) with (x :: firstn 1 r).
    assert (E : str_eqb (x :: firstn 1 r) (lit "//") = false)
      by (pattern x; apply (opens_tail_cases _ Hx); reflexivity).
    rewrite E; reflexivity.
  - exists (Return ([], [c1])); intros x r Hx.
    rewrite slice_to by lia.
    change (firstn (Z.to_nat 2) ([c1] ++ x :: r)) with [c1; x].
    assert (E : str_eqb [c1; x] (lit "//") = false)
      by (pattern x; apply (opens_tail_cases _ Hx); cbn;
          destruct (N.eqb c1 47); reflexivity).
    rewrite E; reflexivity.
  - destruct (str_eqb [c1; c2] (lit "//")) eqn:E.
    + exists (if (has_char (ord "[") (before is_delim t)
                  && negb (has_char (ord "]") (before is_delim t)))
                 || (has_char (ord "]") (before is_delim t)
                     && negb (has_char (ord "[") (before is_delim t)))
              then invalid_ipv6
              else Return (before is_delim t, from is_delim t)).
      intros x r Hx. rewrite slice_to by lia.
      change (firstn (Z.to_nat 2) ((c1 :: c2 :: t) ++ x :: r)) with [c1; c2].
      rewrite E. cbn [app]. rewrite splitnetloc_spec.
      assert (Hd : is_delim x = true)
        by (pattern x; apply (opens_tail_cases _ Hx); reflexivity).
      destruct (@before_app_stop is_delim t r x Hd) as [-> ->].
      destruct (_ || _); reflexivity.
    + exists (Return ([], c1 :: c2 :: t)); intros x r Hx.
      rewrite slice_to by lia.
      change (firstn (Z.to_nat 2) ((c1 :: c2 :: t) ++ x :: r)) with [c1; c2].
      rewrite E; reflexivity.
Qed.

(** Cutting at the first [c], as [url.split(c, 1)[0]] does when [c] occurs. *)
Lemma split1_before (c : char) (w : str) :
  exists tail,
    (if has_char c w then split1 w c else (w, []))
    = (before (fun y => N.eqb y c) w, tail).
Proof.
  induction w as [|y w [tail IH]]; [exists []; reflexivity|].
  unfold has_char in *; cbn [existsb split1 before].
  rewrite (N.eqb_sym c y).
  destruct (N.eqb y c); cbn [orb]; [eexists; reflexivity|].
  destruct (existsb (N.eqb c) w).
  - rewrite IH; eexists; reflexivity.
  - injection IH as IH _. rewrite <- IH. eexists; reflexivity.
Qed.

Lemma before_before_tail (q r : str) (x : char) :
  opens_tail x ->
  before (fun y => N.eqb y (ord "?"))
         (before (fun y => N.eqb y (ord "#")) (q ++ x :: r))
  = before (fun y => N.eqb y (ord "?")) (before (fun y => N.eqb y (ord "#")) q).
Proof.
  intros Hx; induction q as [|y q IH]; cbn [app before].
  - pattern x; apply (opens_tail_cases _ Hx); reflexivity.
  - destruct (N.eqb y (ord "#")); [reflexivity|].
    cbn [before]. destruct (N.eqb y (ord "?")); [reflexivity|].
    rewrite IH; reflexivity.
Qed.

Lemma split_after_scheme_cut (s p : str) :
  exists k, forall x r, opens_tail x ->
    host_path (split_after_scheme nfkc s (p ++ x :: r)) = k.
Proof.
  destruct (netloc_of_cut p) as [o Ho].
  exists (match o with
          | Return (n, q) =>
              _ <- _checknetloc nfkc n ;;
              Return (s, n, before (fun y => N.eqb y (ord "?"))
                              (before (fun y => N.eqb y (ord "#")) q))
          | Raise cls args => Raise cls args
          end).
  intros x r Hx. unfold split_after_scheme. rewrite (Ho x r Hx).
  destruct o as [[n q]|]; [|reflexivity].
  cbn [extend bind].
  destruct (split1_before (ord "#") (q ++ x :: r)) as [t1 ->].
  destruct (split1_before (ord "?")
              (before (fun y => N.eqb y (ord "#")) (q ++ x :: r))) as [t2 ->].
  destruct (_checknetloc nfkc n); [|reflexivity].
  cbn [bind host_path scheme netloc path].
  rewrite before_before_tail by assumption; reflexivity.
Qed.

Lemma firstn_past (a r : str) (x : char) (n : nat) :
  (List.length a < n)%nat ->
  exists r', firstn n (a ++ x :: r) = a ++ x :: r'.
Proof.
  intros Hn. rewrite firstn_app, firstn_all2 by lia.
  destruct (n - List.length a)%nat as [|m] eqn:E; [lia|].
  exists (firstn m r); reflexivity.
Qed.

Lemma urlsplit_cut (a : str) :
  exists s p, forall x r, opens_tail x ->
    urlsplit nfkc (a ++ x :: r) = split_after_scheme nfkc s (p ++ x :: r).
Proof.
  unfold urlsplit, find; cbn [skipn]. change (Z.of_nat 0) with 0%Z.
  destruct (in_dec N.eq_dec (ord ":") a) as [Hin|Hnin].
  - destruct (first_occurrence _ _ Hin) as (a1 & a2 & -> & Ha1).
    assert (Hfind : forall x r,
              find_at (ord ":") ((a1 ++ ord ":" :: a2) ++ x :: r) 0
              = Z.of_nat (List.length a1)).
    { intros x r. rewrite <- app_assoc; cbn [app].
      rewrite find_at_first by assumption; lia. }
    assert (Hto : forall x r,
              slice ((a1 ++ ord ":" :: a2) ++ x :: r) None
                    (Some (Z.of_nat (List.length a1))) = a1).
    { intros x r. rewrite slice_to by lia. rewrite Nat2Z.id, <- app_assoc.
      rewrite firstn_app, Nat.sub_diag, firstn_all; cbn [firstn].
      apply app_nil_r. }
    assert (Hfrom : forall x r,
              slice ((a1 ++ ord ":" :: a2) ++ x :: r)
                    (Some (Z.of_nat (List.length a1) + 1)%Z) None
              = a2 ++ x :: r).
    { intros x r. rewrite slice_from by lia.
      replace (Z.to_nat (Z.of_nat (List.length a1) + 1))
        with (1 + List.length a1)%nat by lia.
      rewrite <- app_assoc, <- skipn_skipn, skipn_app, Nat.sub_diag, skipn_all.
      reflexivity. }
    destruct (Z.ltb_spec 0 (Z.of_nat (List.length a1))) as [Hpos|Hzero].
    + destruct (str_eqb a1 (lit "http")) eqn:Ehttp.
      * exists (lit "http"), a2; intros x r Hx.
        rewrite Hfind, Hto, Hfrom, Ehttp.
        destruct (Z.ltb_spec 0 (Z.of_nat (List.length a1))); [reflexivity | lia].
      * destruct (forallb (fun c => has_char c scheme_chars) a1) eqn:Esch.
        -- exists (lower a1), a2; intros x r Hx.
           rewrite Hfind, Hto, Hfrom, Ehttp, Esch.
           destruct (Z.ltb_spec 0 (Z.of_nat (List.length a1))); [|lia].
           assert (Hnd : existsb (fun c => negb (has_char c (lit "0123456789")))
                           (a2 ++ x :: r) = true).
           { rewrite existsb_app; cbn [existsb].
             assert (Hx' : negb (has_char x (lit "0123456789")) = true)
               by (pattern x; apply (opens_tail_cases _ Hx); reflexivity).
             rewrite Hx'; cbn [orb]; apply orb_true_r. }
           rewrite Hnd, orb_true_r; reflexivity.
        -- exists [], (a1 ++ ord ":" :: a2); intros x r Hx.
           rewrite Hfind, Hto, Ehttp, Esch.
           destruct (Z.ltb_spec 0 (Z.of_nat (List.length a1))); reflexivity.
    + exists [], (a1 ++ ord ":" :: a2); intros x r Hx.
      rewrite Hfind.
      destruct (Z.ltb_spec 0 (Z.of_nat (List.length a1))); [lia | reflexivity].
  - exists [], a; intros x r Hx.
    assert (Hxc : x <> ord ":")
      by (pattern x; apply (opens_tail_cases _ Hx); discriminate).
    destruct (@find_at_beyond (ord ":") x a r 0%Z Hnin Hxc) as [->|Hf]; [reflexivity|].
    destruct (Z.ltb_spec 0 (find_at (ord ":") (a ++ x :: r) 0)); [|reflexivity].
    rewrite slice_to by lia.
    destruct (@firstn_past a r x (Z.to_nat (find_at (ord ":") (a ++ x :: r) 0)))
      as [r' ->]; [lia|].
    assert (Ehttp : str_eqb (a ++ x :: r') (lit "http") = false).
    { apply str_eqb_neq; intros E.
      assert (Hi : In x (lit "http")) by (rewrite <- E; apply in_elt).
      apply has_char_true in Hi. revert Hi.
      pattern x; apply (opens_tail_cases _ Hx); discriminate. }
    assert (Esch : forallb (fun c => has_char c scheme_chars) (a ++ x :: r') = false).
    { rewrite forallb_app; cbn [forallb].
      assert (Hx' : has_char x scheme_chars = false)
        by (pattern x; apply (opens_tail_cases _ Hx); reflexivity).
      rewrite Hx'; cbn [andb]; apply andb_false_r. }
    rewrite Ehttp, Esch; reflexivity.
Qed.

(** The host and path that [urlsplit] finds do not depend on what follows
    the first '#' or '?' of the URL, nor on which of the two it is. *)
Lemma urlsplit_host_path_cut (a : str) :
  exists k, forall x r, opens_tail x ->
    host_path (urlsplit nfkc (a ++ x :: r)) = k.
Proof.
  destruct (urlsplit_cut a) as (s & p & Hs).
  destruct (split_after_scheme_cut s p) as [k Hk].
  exists k; intros x r Hx. rewrite Hs by assumption. apply Hk; assumption.
Qed.

Lemma href_of_host_path (url_ : str) :
  href_of nfkc url_
  = hp <- host_path (urlsplit nfkc url_) ;;
    let '(s, n, p) := hp in
    Return (n ++ fst (if existsb (str_eqb s) uses_params && has_char (ord ";") p
                      then _splitparams p else (p, []))).
Proof.
  unfold href_of, urlparse, host_path.
  destruct (urlsplit nfkc url_) as [u|]; [|reflexivity].
  cbn [bind].
  destruct (existsb (str_eqb (scheme u)) uses_params && has_char (ord ";") (path u));
    [destruct (_splitparams (path u))|]; reflexivity.
Qed.

(** Two URLs that agree up to their first '#' or '?' are looked up under
    the same [href]. *)
Lemma href_of_cut (a r r' : str) (x x' : char) :
  opens_tail x -> opens_tail x' ->
  href_of nfkc (a ++ x :: r) = href_of nfkc (a ++ x' :: r').
Proof.
  intros Hx Hx'. rewrite !href_of_host_path.
  destruct (urlsplit_host_path_cut a) as [k Hk].
  rewrite (Hk x r Hx), (Hk x' r' Hx'); reflexivity.
Qed.


End Cut.

(** ** The hash-bang form and the escaped-fragment form *)

Section Hashbang.

Variable nfkc : str -> str.
Variable Article : Type.
Variable article_url : Article -> str.

(** A batch of one item: the item is dropped when the store has a row for
    the host and path of its URL, and kept otherwise. *)
Lemma memoize_articles_singleton conn (a : Article) :
  memoize_articles nfkc article_url conn [a]
  = c <- cursor conn ;;
    h <- href_of nfkc (article_url a) ;;
    Return (match fetchone_id c h with Some _ => [] | None => [a] end).
Proof.
  unfold memoize_articles, collapse; cbn [List.length Nat.eqb fold_left Dict.set].
  cbn [Dict.items memoize_loop]. unfold memoize_step.
  destruct (cursor conn) as [c|]; [|reflexivity]. cbn [bind].
  destruct (href_of nfkc (article_url a)) as [h|]; [|reflexivity]. cbn [bind].
  destruct (fetchone_id c h); [|reflexivity].
  cbn [Dict.del]. rewrite str_eqb_refl; reflexivity.
Qed.


End Hashbang.

(** ** Fingerprints *)

(** C1: for every URL string, [URLHelper.get_parsing_candidate] ends in the
    [TypeError] that [hashlib.md5] raises when it is given text. *)
Theorem URLHelper_get_parsing_candidate_raises
    (float : Type) (str_of_float : float -> str)
    (md5_hexdigest : list byte -> str) (url_to_crawl : str) (now : float) :
  URLHelper_get_parsing_candidate str_of_float md5_hexdigest url_to_crawl now
  = Raise TypeError
      [OStr (lit "Unicode-objects must be encoded before hashing")].
Proof. reflexivity. Qed.

(** The sibling [RawHelper.get_parsing_candidate] encodes text before it
    hashes, and returns. *)
Lemma RawHelper_get_parsing_candidate_returns
    (float : Type) (str_of_float : float -> str)
    (md5_hexdigest : list byte -> str) (url_ : str) (raw_html : obj)
    (now : float) :
  is_content raw_html = true ->
  exists data,
    RawHelper_get_parsing_candidate str_of_float md5_hexdigest url_ raw_html now
    = Return {| url := url_;
                link_hash := md5_hexdigest data ++ lit "." ++ str_of_float now |}
    /\ data = match raw_html with
              | OStr s => encode_utf8_replace s
              | OBytes b => b
              | _ => []
              end.
Proof.
  destruct raw_html; try discriminate; intros _; eexists; split; reflexivity.
Qed.

(** C8: when the clock's readings print injectively (as the [repr] of a
    Python float does), the same content fingerprinted at two different
    readings gets two different [link_hash] strings. *)
Theorem RawHelper_link_hash_differs_in_time
    (float : Type) (str_of_float : float -> str)
    (md5_hexdigest : list byte -> str) :
  (forall x y, str_of_float x = str_of_float y -> x = y) ->
  forall (url_ : str) (raw_html : obj) (t1 t2 : float),
    is_content raw_html = true -> t1 <> t2 ->
    exists c1 c2,
      RawHelper_get_parsing_candidate str_of_float md5_hexdigest url_ raw_html t1
      = Return c1 /\
      RawHelper_get_parsing_candidate str_of_float md5_hexdigest url_ raw_html t2
      = Return c2 /\
      link_hash c1 <> link_hash c2.
Proof.
  intros Hinj url_ raw_html t1 t2 Hc Ht.
  destruct (RawHelper_get_parsing_candidate_returns str_of_float md5_hexdigest
              url_ raw_html t1 Hc) as (d1 & E1 & Hd1).
  destruct (RawHelper_get_parsing_candidate_returns str_of_float md5_hexdigest
              url_ raw_html t2 Hc) as (d2 & E2 & Hd2).
  rewrite E1, E2; do 2 eexists; repeat split.
  cbn [link_hash]. subst d1 d2. intros E.
  apply app_inv_head in E. apply app_inv_head in E.
  apply Ht, Hinj, E.
Qed.

Lemma decimal_inj (x y : N) : decimal x = decimal y -> x = y.
Proof.
  unfold decimal; intros H. apply lit_inj in H.
  assert (E : NilEmpty.uint_of_string (NilEmpty.string_of_uint (N.to_uint x))
              = NilEmpty.uint_of_string (NilEmpty.string_of_uint (N.to_uint y)))
    by (rewrite H; reflexivity).
  rewrite !NilEmpty.usu in E. injection E as E.
  rewrite <- (DecimalN.Unsigned.of_to x), <- (DecimalN.Unsigned.of_to y), E.
  reflexivity.
Qed.

Lemma RawHelper_link_hash_differs_in_time_witness :
  exists c1 c2,
    RawHelper_get_parsing_candidate decimal checksum (lit "http://example.com/a")
      (OStr (lit "<html>")) 1700000000%N = Return c1 /\
    RawHelper_get_parsing_candidate decimal checksum (lit "http://example.com/a")
      (OStr (lit "<html>")) 1700000001%N = Return c2 /\
    link_hash c1 <> link_hash c2.
Proof.
  apply (RawHelper_link_hash_differs_in_time decimal checksum decimal_inj);
    [reflexivity | discriminate].
Defined.

(** ** The time limit *)

Lemma exc_not_own_arg (cls : exc_class) (args : list obj) :
  [OExc cls args] <> args.
Proof.
  intros E.
  apply (f_equal (fun l => list_sum (map obj_size l))) in E.
  cbn [map obj_size] in E.
  remember (list_sum (map obj_size args)) as n.
  cbv [list_sum fold_right] in E. lia.
Qed.

(** What [raise c.error[0](c.error[1])] raises is never the exception
    that was caught. *)
Lemma rebuilt_is_not_original (cls : exc_class) (args : list obj) :
  raise_ (new_exc cls [OExc cls args]) <> (Raise cls args : result obj).
Proof.
  unfold new_exc. destruct (cls_arity cls) as [n|] eqn:E.
  - destruct (Nat.eqb _ n); cbn [raise_].
    + intros [= H]; exact (exc_not_own_arg H).
    + intros [= H _]; rewrite <- H in E; discriminate.
  - cbn [raise_]; intros [= H]; exact (exc_not_own_arg H).
Qed.

Lemma timelimit_in_time (timeout d : N) (o : result obj) (w : world) :
  (d <= timeout)%N ->
  fst (timelimit timeout {| op_time := Some d; op_outcome := o |} w)
  = match o with
    | Return v => Return v
    | Raise cls args => raise_ (new_exc cls [OExc cls args])
    end.
Proof.
  intros Hd. unfold timelimit, Dispatch, join, error, result_, isAlive, finish.
  cbn [started body op_time op_outcome now threads].
  destruct (N.ltb_spec (N.max (now w) (N.min (now w + d) (now w + timeout)))
                       (now w + d)); [lia|].
  destruct o; reflexivity.
Qed.

(** C4: when the operation ends within the limit by raising an exception,
    what [timelimit] raises is not that exception. *)
Theorem timelimit_raises_another_error
    (d slack : N) (cls : exc_class) (args : list obj) (w : world) :
  fst (timelimit (d + slack)
         {| op_time := Some d; op_outcome := Raise cls args |} w)
  <> Raise cls args.
Proof.
  rewrite timelimit_in_time by lia. apply rebuilt_is_not_original.
Qed.

(** C5: when the operation runs for longer than the limit, [timelimit]
    raises [TimeoutError] at the tick the limit ends; the thread it started
    is still in the pool and alive then, it ends only when the operation
    does, and nothing of the operation's outcome reaches the caller. *)
Theorem timelimit_times_out (timeout : N) (function : operation) (w : world) :
  (forall d, op_time function = Some d -> (timeout < d)%N) ->
  let c := {| started := now w; body := function |} in
  let w' := {| now := now w + timeout; threads := threads w ++ [c] |} in
  timelimit timeout function w = (Raise TimeoutError [], w') /\
  isAlive w' c = true /\
  (forall t, isAlive (advance t w') c = false ->
             exists d, op_time function = Some d /\ (now w + d <= t)%N) /\
  (forall o, fst (timelimit timeout
                    {| op_time := op_time function; op_outcome := o |} w)
             = Raise TimeoutError []).
Proof.
  intros Hlong c w'.
  assert (Hrun : forall o,
            timelimit timeout {| op_time := op_time function; op_outcome := o |} w
            = (Raise TimeoutError [],
               {| now := now w + timeout;
                  threads := threads w ++
                    [{| started := now w;
                        body := {| op_time := op_time function;
                                   op_outcome := o |} |}] |})).
  { intros o. unfold timelimit, Dispatch, join, isAlive, finish.
    cbn [started body op_time op_outcome now threads].
    destruct (op_time function) as [d|] eqn:E.
    - specialize (Hlong d eq_refl).
      replace (N.max (now w) (N.min (now w + d) (now w + timeout)))
        with (now w + timeout)%N by lia.
      destruct (N.ltb_spec (now w + timeout) (now w + d)); [reflexivity | lia].
    - replace (N.max (now w) (now w + timeout)) with (now w + timeout)%N by lia.
      reflexivity. }
  repeat split.
  - specialize (Hrun (op_outcome function)).
    destruct function as [ot oo]; exact Hrun.
  - unfold isAlive, finish, w', c; cbn [started body now].
    destruct (op_time function) as [d|] eqn:E; [|reflexivity].
    apply N.ltb_lt. specialize (Hlong d eq_refl). lia.
  - intros t. unfold isAlive, finish, advance, w', c; cbn [started body now].
    destruct (op_time function) as [d|] eqn:E; [|discriminate].
    intros H; apply N.ltb_ge in H. specialize (Hlong d eq_refl).
    exists d; split; [reflexivity | lia].
  - intros o; rewrite Hrun; reflexivity.
Qed.

Lemma timelimit_times_out_witness :
  timelimit 10 {| op_time := Some 30%N; op_outcome := Return (OInt 7) |} w0
  = (Raise TimeoutError [],
     {| now := 110;
        threads := [ {| started := 100;
                        body := {| op_time := Some 30%N;
                                   op_outcome := Return (OInt 7) |} |} ] |}).
Proof.
  apply (@timelimit_times_out 10%N
           {| op_time := Some 30%N; op_outcome := Return (OInt 7) |} w0).
  intros d [= <-]; reflexivity.
Defined.

(** ** Runs of the de-duplicator *)

Lemma collapse_keeps_last_witness :
  Dict.get (collapse url [cand "http://example.com/a" "h1";
                          cand "http://example.com/a" "h2";
                          cand "http://example.com/b" "h3"])
           (lit "http://example.com/a")
  = Some (cand "http://example.com/a" "h2").
Proof.
  apply (@collapse_keeps_last ParsingCandidate url
           [cand "http://example.com/a" "h1"]
           [cand "http://example.com/b" "h3"]
           (cand "http://example.com/a" "h2")).
  intros b [<-|[]]; discriminate.
Defined.

Lemma memoize_articles_output_sound_witness :
  incl [cand "http://example.com/b" "h4"; cand "http://example.com/c" "h3"]
       [cand "http://example.com/a?x=1#f" "h1"; cand "http://example.com/b" "h2";
        cand "http://example.com/c" "h3"; cand "http://example.com/b" "h4"] /\
  NoDup (map url [cand "http://example.com/b" "h4"; cand "http://example.com/c" "h3"]).
Proof.
  apply (@memoize_articles_output_sound nfkc_id ParsingCandidate url
           (Some demo_store)
           [cand "http://example.com/a?x=1#f" "h1"; cand "http://example.com/b" "h2";
            cand "http://example.com/c" "h3"; cand "http://example.com/b" "h4"]).
  reflexivity.
Defined.

Lemma memoize_articles_filters_on_host_path_witness :
  exists out,
    memoize_articles nfkc_id url (Some demo_store)
      [cand "http://example.com/a?x=1#f" "h1"; cand "http://example.com/b" "h2"]
    = Return out /\
    forall a u,
      Urllib.urlparse nfkc_id (url a) = Return u ->
      (In a out <->
       In a (Dict.values
               (collapse url [cand "http://example.com/a?x=1#f" "h1";
                              cand "http://example.com/b" "h2"])) /\
       ~ In (Urllib.netloc u ++ Urllib.path u) (map href demo_store)).
Proof.
  apply (@memoize_articles_filters_on_host_path nfkc_id ParsingCandidate url
           demo_store
           [cand "http://example.com/a?x=1#f" "h1"; cand "http://example.com/b" "h2"]).
  intros a [<-|[<-|[]]]; eexists; reflexivity.
Defined.

(** ** The cache file name *)

Lemma replace_char (s : str) (c d : char) :
  replace s [c] [d] = map (fun x => if N.eqb x c then d else x) s.
Proof.
  unfold replace. induction s as [|x s IH]; [reflexivity|].
  cbn [replace_from startswith map List.length pred app].
  rewrite (N.eqb_sym c x).
  destruct (N.eqb x c); cbn [andb].
  - destruct s; cbn [startswith]; rewrite IH; reflexivity.
  - rewrite IH; reflexivity.
Qed.

(** [s[:-1]] on a non-empty string drops its last character. *)
Lemma slice_to_neg1 (s : str) (x : char) :
  slice (s ++ [x]) None (Some (-1)%Z) = s.
Proof.
  unfold slice, clip. rewrite length_app; simpl List.length.
  cbn [Z.ltb Z.compare].
  replace (Z.to_nat (Z.max 0 (Z.min (Z.of_nat (List.length s + 1))
                                (-1 + Z.of_nat (List.length s + 1))) - 0))
    with (List.length s) by lia.
  cbn [Z.to_nat skipn].
  rewrite firstn_app, Nat.sub_diag, firstn_all; cbn [firstn]. apply app_nil_r.
Qed.

Lemma domain_to_filename_empty :
  domain_to_filename [] = Raise IndexError [OStr (lit "string index out of range")].
Proof. reflexivity. Qed.

(** [s[-1]] on a non-empty string is its last character. *)
Lemma getitem_last (s : str) (x : char) : getitem (s ++ [x]) (-1) = Return x.
Proof.
  unfold getitem. rewrite length_app; simpl List.length.
  cbn [Z.ltb Z.compare].
  destruct ((0 <=? -1 + Z.of_nat (List.length s + 1))%Z
            && (-1 + Z.of_nat (List.length s + 1)
                <? Z.of_nat (List.length s + 1))%Z) eqn:E.
  - replace (Z.to_nat (-1 + Z.of_nat (List.length s + 1)))
      with (List.length s) by lia.
    rewrite nth_error_app2, Nat.sub_diag by lia. reflexivity.
  - apply andb_false_iff in E as [E|E];
      [apply Z.leb_gt in E | apply Z.ltb_ge in E]; lia.
Qed.

(** On a non-empty domain every '/' becomes '-', one '-' at the end (if
    there is one) is dropped, and ".txt" is appended. *)
Lemma domain_to_filename_snoc (s : str) (x : char) :
  let dash c := if N.eqb c (ord "/") then ord "-" else c in
  domain_to_filename (s ++ [x])
  = Return ((if N.eqb (dash x) (ord "-") then map dash s else map dash (s ++ [x]))
            ++ lit ".txt").
Proof.
  intros dash. unfold domain_to_filename.
  change (lit "/") with [ord "/"]. change (lit "-") with [ord "-"].
  rewrite replace_char. fold dash.
  rewrite map_app; cbn [map].
  rewrite getitem_last; cbn [bind].
  destruct (N.eqb (dash x) (ord "-")); [|reflexivity].
  rewrite slice_to_neg1. reflexivity.
Qed.

(** C10: a domain that ends in two slashes keeps a '-' before the suffix. *)
Theorem domain_to_filename_keeps_a_trailing_dash :
  domain_to_filename (lit "a//") = Return (lit "a-.txt").
Proof. reflexivity. Qed.

(** * More of the module *)

(** ** Cache file names, there and back *)

Lemma replace_char_delete (s : str) (c : char) :
  replace s [c] [] = filter (fun x => negb (N.eqb x c)) s.
Proof.
  unfold replace. induction s as [|x s IH]; [reflexivity|].
  cbn [replace_from startswith filter List.length pred app].
  rewrite (N.eqb_sym c x).
  destruct (N.eqb x c); cbn [andb negb].
  - destruct s; cbn [startswith]; rewrite IH; reflexivity.
  - rewrite IH; reflexivity.
Qed.

(** [s[:-4]] drops the last four characters. *)
Lemma slice_to_neg4 (s t : str) :
  List.length t = 4%nat -> slice (s ++ t) None (Some (-4)%Z) = s.
Proof.
  intros Ht. unfold slice, clip. rewrite length_app, Ht.
  cbn [Z.ltb Z.compare].
  replace (Z.to_nat (Z.max 0 (Z.min (Z.of_nat (List.length s + 4))
                                (-4 + Z.of_nat (List.length s + 4))) - 0))
    with (List.length s) by lia.
  cbn [Z.to_nat skipn].
  rewrite firstn_app, Nat.sub_diag, firstn_all; cbn [firstn]. apply app_nil_r.
Qed.

Lemma filename_to_domain_txt (f : str) :
  filename_to_domain (f ++ lit ".txt")
  = map (fun c => if N.eqb c (ord "-") then ord "/" else c) f.
Proof.
  unfold filename_to_domain.
  change (lit "-") with [ord "-"]. change (lit "/") with [ord "/"].
  rewrite replace_char, map_app.
  change (map _ (lit ".txt")) with (lit ".txt").
  apply slice_to_neg4; reflexivity.
Qed.

(** What a domain becomes on the way to a file name and back: every '-'
    and every '/' is a '/', and one '/' or '-' at the end is lost. *)
Lemma round_trip_shape (s : str) (x : char) :
  let back c := if N.eqb c (ord "-") || N.eqb c (ord "/") then ord "/" else c in
  exists f,
    domain_to_filename (s ++ [x]) = Return f /\
    filename_to_domain f
    = if N.eqb x (ord "-") || N.eqb x (ord "/")
      then map back s else map back (s ++ [x]).
Proof.
  intros back. rewrite domain_to_filename_snoc. cbv zeta.
  eexists; split; [reflexivity|].
  rewrite filename_to_domain_txt.
  assert (Hmm : forall l,
            map (fun c => if N.eqb c (ord "-") then ord "/" else c)
                (map (fun c => if N.eqb c (ord "/") then ord "-" else c) l)
            = map back l).
  { intros l. rewrite map_map. apply map_ext; intros c. unfold back.
    destruct (N.eqb_spec c (ord "/")) as [->|Hs]; [reflexivity|].
    rewrite orb_false_r. reflexivity. }
  destruct (N.eqb_spec x (ord "/")) as [->|Hs].
  - cbn [N.eqb orb]. change (N.eqb (ord "-") (ord "-")) with true. cbv iota.
    rewrite orb_true_r. apply Hmm.
  - rewrite orb_false_r.
    destruct (N.eqb x (ord "-")); rewrite <- Hmm; reflexivity.
Qed.

(** X1: for every non-empty domain, [domain_to_filename] returns a name
    and [filename_to_domain] maps that name to the domain with every '-'
    turned into '/' and one trailing '/' or '-' removed. *)
Theorem filename_round_trip_in_general (s : str) (x : char) :
  exists f,
    domain_to_filename (s ++ [x]) = Return f /\
    filename_to_domain f
    = (if N.eqb x (ord "-") || N.eqb x (ord "/")
       then replace s (lit "-") (lit "/")
       else replace (s ++ [x]) (lit "-") (lit "/")).
Proof.
  destruct (round_trip_shape s x) as (f & Hf & Hb). cbv zeta in Hb.
  exists f; split; [exact Hf|]. rewrite Hb.
  change (lit "-") with [ord "-"]. change (lit "/") with [ord "/"].
  rewrite !replace_char.
  assert (E : forall l : str,
            map (fun c => if N.eqb c (ord "-") || N.eqb c (ord "/")
                          then ord "/" else c) l
            = map (fun c => if N.eqb c (ord "-") then ord "/" else c) l).
  { intros l; apply map_ext; intros c.
    destruct (N.eqb_spec c (ord "/")) as [->|]; [reflexivity|].
    rewrite orb_false_r; reflexivity. }
  rewrite !E. reflexivity.
Qed.

(** X2: a domain without '-' that does not end in '/' comes back
    unchanged. *)
Theorem filename_round_trip_lossless (s : str) (x : char) :
  ~ In (ord "-") (s ++ [x]) -> x <> ord "/" ->
  exists f,
    domain_to_filename (s ++ [x]) = Return f /\
    filename_to_domain f = s ++ [x].
Proof.
  intros Hdash Hx.
  destruct (round_trip_shape s x) as (f & Hf & Hb). cbv zeta in Hb.
  exists f; split; [exact Hf|]. rewrite Hb.
  assert (Hxd : x <> ord "-")
    by (intros ->; apply Hdash, in_or_app; right; left; reflexivity).
  apply N.eqb_neq in Hx, Hxd. rewrite Hx, Hxd. cbn [orb].
  rewrite <- (map_id (s ++ [x])) at 2.
  apply map_ext_in; intros c Hc.
  destruct (N.eqb_spec c (ord "-")) as [->|_]; [contradiction|].
  cbn [orb].
  destruct (N.eqb_spec c (ord "/")) as [->|_]; reflexivity.
Qed.

Lemma filename_round_trip_lossless_witness :
  exists f,
    domain_to_filename (lit "cnn.com/world") = Return f /\
    filename_to_domain f = lit "cnn.com/world".
Proof.
  apply (@filename_round_trip_lossless (lit "cnn.com/worl") (ord "d"));
    [|discriminate].
  cbn. intuition discriminate.
Defined.

(** X3: a domain and the same domain with its slashes written as dashes
    get the same file name (or both fail). *)
Theorem domain_to_filename_confuses_slash_and_dash (domain : str) :
  domain_to_filename (replace domain (lit "/") (lit "-"))
  = domain_to_filename domain.
Proof.
  unfold domain_to_filename.
  change (lit "/") with [ord "/"]. change (lit "-") with [ord "-"].
  rewrite !replace_char, map_map.
  erewrite map_ext; [reflexivity|].
  intros c; cbv beta.
  destruct (N.eqb_spec c (ord "/")) as [->|Hc]; [reflexivity|].
  apply N.eqb_neq in Hc; rewrite Hc; reflexivity.
Qed.

(** X4: for every non-empty domain the name has no '/' in it and ends in
    ".txt". *)
Theorem domain_to_filename_is_flat (s : str) (x : char) :
  exists stem,
    domain_to_filename (s ++ [x]) = Return (stem ++ lit ".txt") /\
    ~ In (ord "/") stem.
Proof.
  rewrite domain_to_filename_snoc. cbv zeta.
  eexists; split; [reflexivity|].
  assert (H : forall l : str,
            ~ In (ord "/")
                 (map (fun c => if N.eqb c (ord "/") then ord "-" else c) l)).
  { intros l Hin. apply in_map_iff in Hin as (c & Hc & _).
    destruct (N.eqb_spec c (ord "/")); [discriminate | congruence]. }
  destruct (N.eqb _ (ord "-")); apply H.
Qed.

(** ** [is_ascii] and [to_valid_filename] *)

Lemma is_ascii_forallb (word : str) :
  is_ascii word = forallb (fun c => c <=? 127)%N word.
Proof.
  induction word as [|c w IH]; [reflexivity|].
  cbn [is_ascii forallb]. unfold onlyascii.
  rewrite N.ltb_antisym. destruct (c <=? 127)%N; cbn [negb andb]; auto.
Qed.

(** X5: [is_ascii] answers [True] exactly for the words whose code points
    are all at most 127; the empty word is one of them. *)
Theorem is_ascii_iff (word : str) :
  is_ascii word = true <-> forall c, In c word -> (c <= 127)%N.
Proof.
  rewrite is_ascii_forallb, forallb_forall.
  split; intros H c Hc; [apply N.leb_le | apply N.leb_le]; auto.
Qed.

(** X6: the UTF-8 encoding that [RawHelper] hashes of a word that
    [is_ascii] accepts is the word itself, one byte per character. *)
Theorem is_ascii_encodes_bytewise (word : str) :
  is_ascii word = true ->
  map Byte.to_N (encode_utf8_replace word) = word.
Proof.
  rewrite is_ascii_forallb. unfold encode_utf8_replace.
  induction word as [|c w IH]; [reflexivity|].
  cbn [forallb flat_map]. intros H; apply andb_true_iff in H as [Hc Hw].
  apply N.leb_le in Hc.
  rewrite map_app, (IH Hw). unfold encode_char.
  destruct (N.ltb_spec c 128); [|lia].
  cbn [map app]. f_equal.
  unfold byte_of. rewrite N.mod_small by lia.
  destruct (Byte.of_N c) as [b|] eqn:E.
  - apply Byte.to_of_N; exact E.
  - apply Byte.of_N_None_iff in E; lia.
Qed.

Lemma is_ascii_encodes_bytewise_witness :
  map Byte.to_N (encode_utf8_replace (lit "<html>")) = lit "<html>".
Proof.
  apply (@is_ascii_encodes_bytewise (lit "<html>")). reflexivity.
Defined.

(** X7: [to_valid_filename] keeps a string of valid characters as it is;
    in particular applying it twice is applying it once. *)
Theorem to_valid_filename_idempotent (s : str) :
  to_valid_filename (to_valid_filename s) = to_valid_filename s.
Proof.
  unfold to_valid_filename.
  apply forallb_filter_id, forallb_forall.
  intros c Hc; apply filter_In in Hc as [_ Hc]; exact Hc.
Qed.

(** X8: what [to_valid_filename] returns is ASCII, has no '/' in it, and
    is no longer than its argument. *)
Theorem to_valid_filename_is_safe (s : str) :
  is_ascii (to_valid_filename s) = true /\
  ~ In (ord "/") (to_valid_filename s) /\
  (List.length (to_valid_filename s) <= List.length s)%nat.
Proof.
  unfold to_valid_filename. repeat split.
  - rewrite is_ascii_forallb. apply forallb_forall. intros c Hc.
    apply filter_In in Hc as [_ Hc]. apply has_char_true in Hc.
    assert (Hall : forallb (fun c => c <=? 127)%N valid_chars = true)
      by reflexivity.
    rewrite forallb_forall in Hall. apply Hall, Hc.
  - intros Hin. apply filter_In in Hin as [_ Hin]. discriminate.
  - apply filter_length_le.
Qed.

(** X9: the file name of a non-empty domain made of valid characters and
    slashes passes [to_valid_filename] unchanged. *)
Theorem to_valid_filename_keeps_domain_filenames (s : str) (x : char) :
  (forall c, In c (s ++ [x]) -> c = ord "/" \/ In c valid_chars) ->
  exists f,
    domain_to_filename (s ++ [x]) = Return f /\ to_valid_filename f = f.
Proof.
  intros Hv. rewrite domain_to_filename_snoc. cbv zeta.
  eexists; split; [reflexivity|].
  unfold to_valid_filename. apply forallb_filter_id, forallb_forall.
  assert (Hmap : forall l : str,
            (forall c, In c l -> c = ord "/" \/ In c valid_chars) ->
            forall c,
              In c (map (fun c => if N.eqb c (ord "/") then ord "-" else c) l) ->
              has_char c valid_chars = true).
  { intros l Hl c Hc. apply in_map_iff in Hc as (c0 & <- & Hc0).
    destruct (N.eqb_spec c0 (ord "/")); [reflexivity|].
    apply has_char_true. destruct (Hl c0 Hc0); [contradiction | assumption]. }
  intros c Hc. apply in_app_or in Hc as [Hc|Hc].
  - destruct (N.eqb _ (ord "-")).
    + apply (Hmap s); [|exact Hc].
      intros c0 H0; apply Hv, in_or_app; left; exact H0.
    + apply (Hmap (s ++ [x])); assumption.
  - apply has_char_true.
    assert (Hall : forallb (fun c => has_char c valid_chars) (lit ".txt") = true)
      by reflexivity.
    rewrite forallb_forall in Hall. apply has_char_true, Hall, Hc.
Qed.

Lemma to_valid_filename_keeps_domain_filenames_witness :
  exists f,
    domain_to_filename (lit "a/b") = Return f /\ to_valid_filename f = f.
Proof.
  apply (@to_valid_filename_keeps_domain_filenames (lit "a/") (ord "b")).
  intros c [<-|[<-|[<-|[]]]]; cbn; tauto.
Defined.

(** ** [chunks] *)

Section ChunkFacts.

Variable A : Type.
Implicit Types (l : list A).

Lemma lslice_mid l (i j : Z) :
  (0 <= i <= j)%Z ->
  lslice l (Some i) (Some j) = firstn (Z.to_nat (j - i)) (skipn (Z.to_nat i) l).
Proof.
  intros Hij; unfold lslice, clip.
  destruct (Z.ltb_spec i 0); [lia|]. destruct (Z.ltb_spec j 0); [lia|].
  destruct (Z.le_gt_cases i (Z.of_nat (List.length l))).
  - replace (Z.to_nat (Z.max 0 (Z.min (Z.of_nat (List.length l)) i)))
      with (Z.to_nat i) by lia.
    rewrite <- (firstn_min (Z.to_nat (j - i))). f_equal.
    rewrite length_skipn; lia.
  - rewrite (skipn_all2 (n := Z.to_nat i)) by lia.
    rewrite skipn_all2 by lia. rewrite !firstn_nil; reflexivity.
Qed.

Lemma lslice_from l (i : Z) :
  (0 <= i)%Z -> lslice l (Some i) None = skipn (Z.to_nat i) l.
Proof.
  intros Hi; unfold lslice, clip.
  destruct (Z.ltb_spec i 0); [lia|].
  destruct (Z.le_gt_cases i (Z.of_nat (List.length l))).
  - replace (Z.to_nat (Z.max 0 (Z.min (Z.of_nat (List.length l)) i)))
      with (Z.to_nat i) by lia.
    apply firstn_all2. rewrite length_skipn; lia.
  - rewrite (skipn_all2 (n := Z.to_nat i)) by lia.
    rewrite skipn_all2 by lia. apply firstn_nil.
Qed.

Lemma firstn_plus l (a b : nat) :
  firstn (a + b) l = firstn a l ++ firstn b (skipn a l).
Proof.
  revert l; induction a as [|a IH]; intros l; [reflexivity|].
  destruct l as [|x l]; cbn [Nat.add firstn skipn app].
  - rewrite firstn_nil; reflexivity.
  - rewrite IH; reflexivity.
Qed.

Lemma concat_blocks l (K m : nat) :
  List.concat (map (fun j => firstn K (skipn (j * K) l)) (seq 0 m))
  = firstn (m * K) l.
Proof.
  induction m as [|m IH]; [reflexivity|].
  rewrite seq_S, map_app, concat_app, IH. cbn [Nat.add map List.concat].
  rewrite app_nil_r. cbn [Nat.mul].
  rewrite (Nat.add_comm K (m * K)). symmetry; apply firstn_plus.
Qed.

(** For [n >= 1] the chunks are [n - 1] blocks of [len(l) // n] elements
    cut from the front, and then all the rest. *)
Lemma chunks_shape l (n : Z) :
  (1 <= n)%Z ->
  let K := Z.to_nat (Z.of_nat (List.length l) / n) in
  let m := Z.to_nat (n - 1) in
  chunks l n
  = Return (map (fun j => firstn K (skipn (j * K) l)) (seq 0 m)
            ++ [skipn (m * K) l]).
Proof.
  intros Hn K m. unfold chunks.
  destruct (Z.eqb_spec n 0); [lia|].
  rewrite Z.quot_div_nonneg by lia.
  set (k := (Z.of_nat (List.length l) / n)%Z).
  assert (Hk : (0 <= k)%Z) by (apply Z.div_pos; lia).
  f_equal. f_equal.
  - unfold range. rewrite Z.sub_0_r, map_map. fold m.
    apply map_ext; intros j.
    rewrite lslice_mid by nia.
    replace (Z.to_nat ((0 + Z.of_nat j) * k + k - (0 + Z.of_nat j) * k))
      with K by (unfold K; fold k; lia).
    replace (Z.to_nat ((0 + Z.of_nat j) * k)) with (j * K)%nat
      by (unfold K; fold k; nia).
    reflexivity.
  - rewrite lslice_from by nia.
    replace (Z.to_nat (n * k - k)) with (m * K)%nat
      by (unfold K, m; fold k; nia).
    reflexivity.
Qed.

(** X10: for [n >= 1], [chunks(l, n)] yields exactly [n] chunks, and the
    chunks put end to end are [l]: nothing is lost, repeated or reordered. *)
Theorem chunks_partition l (n : Z) :
  (1 <= n)%Z ->
  exists cs,
    chunks l n = Return cs /\
    Z.of_nat (List.length cs) = n /\
    List.concat cs = l.
Proof.
  intros Hn. rewrite chunks_shape by assumption. cbv zeta.
  eexists; split; [reflexivity|]. split.
  - rewrite length_app, length_map, length_seq. cbn [List.length]. lia.
  - rewrite concat_app, concat_blocks. cbn [List.concat].
    rewrite app_nil_r. apply firstn_skipn.
Qed.

(** X11: for [n >= 1], each chunk but the last has [len(l) // n]
    elements, and the last one has those and the [len(l) % n] left over. *)
Theorem chunks_sizes l (n : Z) :
  (1 <= n)%Z ->
  exists front last_,
    chunks l n = Return (front ++ [last_]) /\
    Forall (fun c => Z.of_nat (List.length c)
                     = (Z.of_nat (List.length l) / n)%Z) front /\
    Z.of_nat (List.length last_)
    = (Z.of_nat (List.length l) / n + Z.of_nat (List.length l) mod n)%Z.
Proof.
  intros Hn. rewrite chunks_shape by assumption. cbv zeta.
  set (k := (Z.of_nat (List.length l) / n)%Z).
  assert (Hk : (0 <= k)%Z) by (apply Z.div_pos; lia).
  assert (Hdiv : Z.of_nat (List.length l)
                 = (n * k + Z.of_nat (List.length l) mod n)%Z)
    by (apply Z.div_mod; lia).
  assert (Hmod : (0 <= Z.of_nat (List.length l) mod n < n)%Z)
    by (apply Z.mod_pos_bound; lia).
  do 2 eexists; split; [reflexivity|]. split.
  - apply Forall_forall; intros c Hc.
    apply in_map_iff in Hc as (j & <- & Hj). apply in_seq in Hj.
    rewrite length_firstn, length_skipn. nia.
  - rewrite length_skipn. nia.
Qed.

(** X12: [chunks(l, 0)] fails with [ZeroDivisionError], and a negative
    [n] yields a single chunk, a tail of [l] (all of [l] only when
    [len(l) < -n]). *)
Theorem chunks_without_positive_count l (n : Z) :
  (n <= 0)%Z ->
  (n = 0%Z /\
   chunks l n = Raise ZeroDivisionError [OStr (lit "division by zero")]) \/
  (n < 0 /\
   chunks l n
   = Return [skipn (Z.to_nat (Z.quot (Z.of_nat (List.length l)) n * (n - 1))) l])%Z.
Proof.
  intros Hn. destruct (Z.eq_dec n 0) as [->|Hz]; [left; split; reflexivity|].
  right; split; [lia|]. unfold chunks.
  destruct (Z.eqb_spec n 0); [contradiction|].
  unfold range. replace (Z.to_nat (n - 1 - 0)) with 0%nat by lia.
  cbn [seq map app].
  assert (Hq : (Z.quot (Z.of_nat (List.length l)) n <= 0)%Z).
  { rewrite <- (Z.opp_involutive n), Z.quot_opp_r by lia.
    assert (0 <= Z.quot (Z.of_nat (List.length l)) (- n))%Z
      by (apply Z.quot_pos; lia).
    lia. }
  rewrite lslice_from by nia.
  do 3 f_equal. lia.
Qed.

End ChunkFacts.

Lemma chunks_partition_witness :
  exists cs,
    chunks [1; 2; 3; 4; 5; 6; 7]%nat 3 = Return cs /\
    Z.of_nat (List.length cs) = 3%Z /\
    List.concat cs = [1; 2; 3; 4; 5; 6; 7]%nat.
Proof. apply (@chunks_partition nat [1; 2; 3; 4; 5; 6; 7]%nat 3). lia. Defined.

Lemma chunks_sizes_witness :
  exists front last_,
    chunks [1; 2; 3; 4; 5; 6; 7]%nat 3 = Return (front ++ [last_]) /\
    Forall (fun c => Z.of_nat (List.length c) = (7 / 3)%Z) front /\
    Z.of_nat (List.length last_) = (7 / 3 + 7 mod 3)%Z.
Proof. apply (@chunks_sizes nat [1; 2; 3; 4; 5; 6; 7]%nat 3). lia. Defined.

Lemma chunks_without_positive_count_witness :
  chunks [1; 2; 3; 4; 5]%nat (-2) = Return [[]].
Proof.
  destruct (@chunks_without_positive_count nat [1; 2; 3; 4; 5]%nat (-2)
              ltac:(lia)) as [[H _]|[_ H]]; [discriminate H | exact H].
Defined.

Example chunks1 :
  chunks [1; 2; 3; 4; 5; 6; 7]%nat 3 = Return [[1; 2]; [3; 4]; [5; 6; 7]]%nat.
Proof. reflexivity. Qed.

(** ** [ReplaceSequence] *)

(** A pattern that does not occur leaves the string as it is. *)
Lemma replace_absent (s old new : str) :
  contains old s = false -> replace s old new = s.
Proof.
  destruct old as [|o old]; [destruct s; discriminate|].
  unfold replace. induction s as [|c s IH]; [reflexivity|].
  cbn [contains replace_from]. intros H; apply orb_false_iff in H as [E H].
  rewrite E, (IH H); reflexivity.
Qed.

(** X13: when none of the patterns of a sequence occurs in a string,
    [replaceAll] returns the string unchanged. *)
Theorem ReplaceSequence_fixes_clean_strings
    (self : ReplaceSequence.t) (s : str) :
  (forall rp, In rp self -> contains (StringReplacement.pattern rp) s = false) ->
  ReplaceSequence.replaceAll self (Some s) = s.
Proof.
  intros H. unfold ReplaceSequence.replaceAll.
  destruct s as [|c s]; [reflexivity|].
  induction self as [|rp self IH]; [reflexivity|].
  cbn [fold_left StringReplacement.replaceAll].
  rewrite replace_absent by (apply H; left; reflexivity).
  apply IH; intros rp' Hin; apply H; right; exact Hin.
Qed.

Lemma ReplaceSequence_fixes_clean_strings_witness :
  ReplaceSequence.replaceAll
    (ReplaceSequence.append
       (ReplaceSequence.create ReplaceSequence.new (lit "#!") None)
       (lit "&amp;") (Some (lit "&")))
    (Some (lit "a < b"))
  = lit "a < b".
Proof.
  apply ReplaceSequence_fixes_clean_strings.
  intros rp [<-|[<-|[]]]; reflexivity.
Defined.

(** X14: a sequence built by [create] and [append] from one-character
    patterns, each with the default replacement, deletes exactly those
    characters; [None] and the empty string give the empty string. *)
Theorem ReplaceSequence_deletes_characters (cs : list char) (s : str) :
  let self :=
    fold_left (fun q c => ReplaceSequence.append q [c] None) cs
              ReplaceSequence.new in
  ReplaceSequence.replaceAll self (Some s)
  = filter (fun x => negb (has_char x cs)) s /\
  ReplaceSequence.replaceAll self None = [].
Proof.
  intros self; split; [|reflexivity].
  assert (Hself : self = map (fun c => {| StringReplacement.pattern := [c];
                                          StringReplacement.replaceWith := [] |}) cs).
  { unfold self, ReplaceSequence.new.
    rewrite <- (app_nil_l (map _ cs)). generalize (@nil StringReplacement.t).
    induction cs as [|c cs IH]; intros q; cbn [fold_left map].
    - rewrite app_nil_r; reflexivity.
    - rewrite IH. unfold ReplaceSequence.append, ReplaceSequence.create.
      rewrite <- app_assoc; reflexivity. }
  rewrite Hself. clear self Hself. unfold ReplaceSequence.replaceAll.
  assert (Hfold : forall t : str,
            fold_left (fun m rp => StringReplacement.replaceAll rp (Some m))
              (map (fun c => {| StringReplacement.pattern := [c];
                                StringReplacement.replaceWith := [] |}) cs) t
            = filter (fun x => negb (has_char x cs)) t).
  { induction cs as [|c cs IH]; intros t; cbn [map fold_left].
    - symmetry; apply forallb_filter_id, forallb_forall; reflexivity.
    - rewrite IH.
      assert (Hstep : StringReplacement.replaceAll
                        {| StringReplacement.pattern := [c];
                           StringReplacement.replaceWith := [] |} (Some t)
                      = filter (fun x => negb (N.eqb x c)) t).
      { destruct t as [|y t]; [reflexivity|].
        cbn [StringReplacement.replaceAll StringReplacement.pattern
             StringReplacement.replaceWith].
        apply replace_char_delete. }
      rewrite Hstep, filter_twice. apply filter_ext; intros x.
      unfold has_char; cbn [existsb]. rewrite negb_orb. reflexivity. }
  destruct s as [|y s]; [reflexivity|]. apply Hfold.
Qed.

(** ** [extend_config] *)

Section ConfigFacts.

Variable V : Type.
Implicit Types (config items : Dict.t V).

Lemma hasattr_keys config k :
  hasattr config k = existsb (str_eqb k) (Dict.keys config).
Proof.
  unfold hasattr. induction config as [|[k' v'] config IH]; [reflexivity|].
  cbn [Dict.get Dict.keys map fst existsb]. rewrite (str_eqb_sym k k').
  destruct (str_eqb k' k); [reflexivity | exact IH].
Qed.

Lemma get_absent config k :
  ~ In k (Dict.keys config) -> Dict.get config k = None.
Proof.
  induction config as [|[k' v'] config IH]; [reflexivity|].
  cbn [Dict.get Dict.keys map fst]. intros H.
  destruct (str_eqb k' k) eqn:E.
  - apply str_eqb_eq in E; exfalso; apply H; left; exact E.
  - apply IH; intros Hin; apply H; right; exact Hin.
Qed.

(** X15: [extend_config] never adds an attribute and never removes one:
    the configuration keeps its attribute names, in their order. *)
Theorem extend_config_keeps_attribute_names config items :
  Dict.keys (extend_config config items) = Dict.keys config.
Proof.
  unfold extend_config, Dict.items. revert config.
  induction items as [|[k v] items IH]; intros config; [reflexivity|].
  cbn [fold_left fst snd]. rewrite IH.
  rewrite hasattr_keys.
  destruct (existsb (str_eqb k) (Dict.keys config)) eqn:E; [|reflexivity].
  rewrite keys_set, E; reflexivity.
Qed.

(** X16: after [extend_config], an attribute the configuration had holds
    the value the items give for its name, or its old value when the
    items do not name it; a name the configuration did not have is still
    absent. *)
Theorem extend_config_lookup config items k :
  NoDup (Dict.keys items) ->
  Dict.get (extend_config config items) k
  = match Dict.get config k with
    | None => None
    | Some old => Some (match Dict.get items k with
                        | Some v => v
                        | None => old
                        end)
    end.
Proof.
  unfold extend_config, Dict.items. revert config.
  induction items as [|[k1 v1] items IH]; intros config Hnd.
  - cbn [fold_left Dict.get]. destruct (Dict.get config k); reflexivity.
  - inversion Hnd as [|? ? Hk1 Hnd']; subst.
    cbn [fold_left fst snd]. rewrite (IH _ Hnd'). cbn [Dict.get].
    destruct (str_eqb k1 k) eqn:E.
    + apply str_eqb_eq in E; subst k1.
      rewrite (@get_absent items k Hk1).
      unfold hasattr. destruct (Dict.get config k) as [old|] eqn:G.
      * rewrite get_set_same; reflexivity.
      * rewrite G; reflexivity.
    + apply str_eqb_neq in E.
      destruct (hasattr config k1); [rewrite get_set_other by exact E|];
        reflexivity.
Qed.

End ConfigFacts.

Lemma extend_config_lookup_witness :
  Dict.get (extend_config [(lit "language", lit "en"); (lit "verbose", lit "0")]
                          [(lit "verbose", lit "1"); (lit "colour", lit "red")])
           (lit "verbose")
  = Some (lit "1").
Proof.
  apply (@extend_config_lookup str
           [(lit "language", lit "en"); (lit "verbose", lit "0")]
           [(lit "verbose", lit "1"); (lit "colour", lit "red")]
           (lit "verbose")).
  repeat constructor; cbn; intuition discriminate.
Defined.

(** ** [timelimit], within the limit *)

(** X17: when the operation returns within the limit, [timelimit] returns
    its value at the tick the operation ends (it does not wait for the
    limit), and the thread it started is no longer alive. *)
Theorem timelimit_returns_in_time
    (timeout d : N) (v : obj) (w : world) :
  (d <= timeout)%N ->
  let function := {| op_time := Some d; op_outcome := Return v |} in
  let c := {| started := now w; body := function |} in
  let w' := {| now := now w + d; threads := threads w ++ [c] |} in
  timelimit timeout function w = (Return v, w') /\ isAlive w' c = false.
Proof.
  intros Hd function c w'.
  unfold timelimit, Dispatch, join, error, result_, isAlive, finish.
  cbn [started body op_time op_outcome now threads function c w'].
  replace (N.max (now w) (N.min (now w + d) (now w + timeout)))
    with (now w + d)%N by lia.
  rewrite N.ltb_irrefl. split; reflexivity.
Qed.

Lemma timelimit_returns_in_time_witness :
  timelimit 10 {| op_time := Some 3%N; op_outcome := Return (OInt 7) |} w0
  = (Return (OInt 7),
     {| now := 103;
        threads := [ {| started := 100;
                        body := {| op_time := Some 3%N;
                                   op_outcome := Return (OInt 7) |} |} ] |}).
Proof.
  apply (@timelimit_returns_in_time 10%N 3%N (OInt 7) w0). discriminate.
Defined.

(** ** More on the de-duplicator *)

Section MemoizeMore.

Variable nfkc : str -> str.
Variable Article : Type.
Variable article_url : Article -> str.

Lemma seen_keys_filter (db : connection) (cur : Dict.t Article) :
  filter (fun kv =>
            negb (existsb (fun k => str_eqb (fst kv) k && seen nfkc db k)
                          (Dict.keys cur))) cur
  = filter (fun kv => negb (seen nfkc db (fst kv))) cur.
Proof.
  apply filter_ext_in; intros [k v] Hin; cbn [fst]. f_equal.
  apply (in_map fst) in Hin; cbn [fst] in Hin.
  destruct (seen nfkc db k) eqn:Es.
  - apply existsb_exists; exists k; split; [exact Hin|].
    rewrite str_eqb_refl, Es; reflexivity.
  - destruct (existsb _ _) eqn:Ex; [|reflexivity].
    apply existsb_exists in Ex as (k' & _ & Hk').
    apply andb_true_iff in Hk' as [Heq Hs].
    apply str_eqb_eq in Heq; subst k'; congruence.
Qed.

Lemma collapse_has_key (l : list Article) (a : Article) :
  In a l -> In (article_url a) (Dict.keys (collapse article_url l)).
Proof.
  intros Hin.
  destruct (Dict.get (collapse article_url l) (article_url a)) as [v|] eqn:G.
  - apply get_In in G. apply (in_map fst) in G; exact G.
  - rewrite collapse_get in G.
    apply in_rev in Hin. apply (find_none _ _ G) in Hin.
    rewrite str_eqb_refl in Hin; discriminate.
Qed.

(** With an open handle, the loop returns exactly when every key parses. *)
Lemma memoize_loop_returns conn its (cur d : Dict.t Article) :
  memoize_loop nfkc conn its cur = Return d ->
  forall k, In k (Dict.keys its) -> exists h, href_of nfkc k = Return h.
Proof.
  revert cur; induction its as [|[k1 v1] its IH]; intros cur; [intros _ k []|].
  cbn [memoize_loop]. unfold memoize_step.
  destruct (cursor conn) as [c|]; [|discriminate]. cbn [bind].
  destruct (href_of nfkc k1) as [h|] eqn:E; [|discriminate]. cbn [bind].
  intros H k [<-|Hk]; [exists h; exact E|].
  destruct (match fetchone_id c h with
            | Some _ => Dict.del cur k1
            | None => Return cur
            end) as [cur'|]; [|discriminate].
  cbn [bind] in H. exact (IH _ H k Hk).
Qed.

Lemma memoize_loop_aborts conn its (cur : Dict.t Article) k cls args :
  In k (Dict.keys its) -> href_of nfkc k = Raise cls args ->
  exists cls' args', memoize_loop nfkc conn its cur = Raise cls' args'.
Proof.
  intros Hk Hr.
  destruct (memoize_loop nfkc conn its cur) as [d|cls' args'] eqn:E;
    [|exists cls', args'; reflexivity].
  destruct (memoize_loop_returns _ _ _ E k Hk) as [h Hh]; congruence.
Qed.

(** What [memoize_articles] returns with an open handle when every URL
    parses: the collapsed batch without the entries the store has seen. *)
Lemma memoize_articles_spec (db : connection) (articles : list Article) :
  (forall k, In k (Dict.keys (collapse article_url articles)) ->
             exists h, href_of nfkc k = Return h) ->
  memoize_articles nfkc article_url (Some db) articles
  = Return (Dict.values
              (filter (fun kv => negb (seen nfkc db (fst kv)))
                      (collapse article_url articles))).
Proof.
  intros Hparse. unfold memoize_articles.
  destruct articles as [|a0 l]; [reflexivity|].
  cbn [List.length Nat.eqb]. unfold Dict.items.
  rewrite memoize_loop_spec;
    auto using incl_refl, collapse_keys_NoDup.
  cbn [bind]. rewrite seen_keys_filter. reflexivity.
Qed.

Lemma parse_href (a : Article) (u : Urllib.ParseResult) :
  Urllib.urlparse nfkc (article_url a) = Return u ->
  href_of nfkc (article_url a) = Return (Urllib.netloc u ++ Urllib.path u).
Proof. intros H; unfold href_of; rewrite H; reflexivity. Qed.

Lemma keys_parse (articles : list Article) :
  (forall a, In a articles ->
             exists u, Urllib.urlparse nfkc (article_url a) = Return u) ->
  forall k, In k (Dict.keys (collapse article_url articles)) ->
            exists h, href_of nfkc k = Return h.
Proof.
  intros Hp k Hk. apply in_map_iff in Hk as ([k' v] & <- & Hin).
  destruct (collapse_entry _ _ _ _ Hin) as [<- Hv].
  destruct (Hp v Hv) as [u Hu]. eexists; apply parse_href; exact Hu.
Qed.

Lemma set_fresh (d : Dict.t Article) k v :
  ~ In k (Dict.keys d) -> Dict.set d k v = d ++ [(k, v)].
Proof.
  induction d as [|[k' v'] d IH]; [reflexivity|].
  cbn [Dict.set Dict.keys map fst app]. intros H.
  destruct (str_eqb k' k) eqn:E.
  - apply str_eqb_eq in E; exfalso; apply H; left; exact E.
  - rewrite IH by (intros Hin; apply H; right; exact Hin). reflexivity.
Qed.

(** A batch without repeated URLs collapses to itself. *)
Lemma collapse_distinct (l : list Article) :
  NoDup (map article_url l) ->
  collapse article_url l = map (fun a => (article_url a, a)) l.
Proof.
  induction l as [|a l IH] using rev_ind; [reflexivity|].
  rewrite map_app; cbn [map]. intros Hnd.
  apply NoDup_remove in Hnd as [Hnd Hnot]. rewrite app_nil_r in Hnd, Hnot.
  rewrite collapse_snoc, (IH Hnd), map_app. cbn [map].
  apply set_fresh. unfold Dict.keys. rewrite map_map. cbn [fst]. exact Hnot.
Qed.

(** X18: with an empty store and a batch whose URLs parse and are all
    different, [memoize_articles] returns the batch as it was given, in
    the same order. *)
Theorem memoize_articles_empty_store (articles : list Article) :
  NoDup (map article_url articles) ->
  (forall a, In a articles ->
             exists u, Urllib.urlparse nfkc (article_url a) = Return u) ->
  memoize_articles nfkc article_url (Some []) articles = Return articles.
Proof.
  intros Hnd Hp. rewrite memoize_articles_spec by (apply keys_parse, Hp).
  f_equal. rewrite collapse_distinct by assumption.
  rewrite forallb_filter_id.
  - unfold Dict.values; rewrite map_map; cbn [snd]. apply map_id.
  - apply forallb_forall; intros [k v] _; cbn [fst].
    unfold seen. destruct (href_of nfkc k); reflexivity.
Qed.

(** X19: a batch that [memoize_articles] returned passes through it
    unchanged: with the same store handle, the second call returns the
    same list. *)
Theorem memoize_articles_idempotent conn (articles out : list Article) :
  memoize_articles nfkc article_url conn articles = Return out ->
  memoize_articles nfkc article_url conn out = Return out.
Proof.
  intros H. destruct articles as [|a0 l]; [injection H as <-; reflexivity|].
  destruct conn as [db|].
  2:{ unfold memoize_articles in H. cbn [List.length Nat.eqb] in H.
      pose proof (collapse_nonempty article_url a0 l) as Hne.
      destruct (collapse article_url (a0 :: l)) as [|[k v] d]; [congruence|].
      discriminate H. }
  assert (Hparse : forall k, In k (Dict.keys (collapse article_url (a0 :: l))) ->
                             exists h, href_of nfkc k = Return h).
  { unfold memoize_articles in H. cbn [List.length Nat.eqb] in H.
    destruct (memoize_loop nfkc (Some db) _ _) as [d|] eqn:E; [|discriminate H].
    exact (memoize_loop_returns _ _ _ E). }
  rewrite memoize_articles_spec in H by exact Hparse.
  injection H as H.
  set (E := filter (fun kv => negb (seen nfkc db (fst kv)))
                   (collapse article_url (a0 :: l))) in *.
  assert (Hent : forall k v, In (k, v) E -> article_url v = k).
  { intros k v Hin. apply filter_In in Hin as [Hin _].
    apply (collapse_entry _ _ _ _ Hin). }
  assert (Hnd : NoDup (map article_url out)).
  { rewrite <- H, values_url_keys by exact Hent.
    apply keys_filter_NoDup, collapse_keys_NoDup. }
  assert (Hcol : collapse article_url out = E).
  { rewrite collapse_distinct by exact Hnd. rewrite <- H.
    unfold Dict.values. rewrite map_map.
    transitivity (map (fun kv : str * Article => kv) E); [|apply map_id].
    apply map_ext_in.
    intros [k v] Hin; cbn [snd]. rewrite (Hent _ _ Hin); reflexivity. }
  rewrite memoize_articles_spec.
  - rewrite Hcol. f_equal. rewrite <- H. f_equal.
    apply forallb_filter_id, forallb_forall.
    intros kv Hin; apply filter_In in Hin as [_ Hin]; exact Hin.
  - rewrite Hcol. intros k Hk. apply Hparse.
    apply in_map_iff in Hk as (kv & <- & Hin).
    apply filter_In in Hin as [Hin _]. apply in_map; exact Hin.
Qed.

(** X20: one URL that [urlparse] rejects makes the whole call fail,
    whatever the other items and the store are. *)
Theorem memoize_articles_aborts_on_bad_url
    conn (articles : list Article) (a : Article) cls args :
  In a articles ->
  Urllib.urlparse nfkc (article_url a) = Raise cls args ->
  exists cls' args',
    memoize_articles nfkc article_url conn articles = Raise cls' args'.
Proof.
  intros Hin Hbad. unfold memoize_articles.
  destruct articles as [|a0 l]; [destruct Hin|].
  cbn [List.length Nat.eqb].
  destruct (@memoize_loop_aborts conn
              (Dict.items (collapse article_url (a0 :: l)))
              (collapse article_url (a0 :: l))
              (article_url a) cls args) as (cls' & args' & E).
  - apply collapse_has_key; exact Hin.
  - unfold href_of; rewrite Hbad; reflexivity.
  - rewrite E. exists cls', args'; reflexivity.
Qed.

(** X21: rows added to the store never bring an item back: when every
    [href] of one store is also in another, what the call returns with
    the larger store is part of what it returns with the smaller one. *)
Theorem memoize_articles_antitone
    (db db' : connection) (articles : list Article) :
  incl (map href db) (map href db') ->
  (forall a, In a articles ->
             exists u, Urllib.urlparse nfkc (article_url a) = Return u) ->
  exists out out',
    memoize_articles nfkc article_url (Some db) articles = Return out /\
    memoize_articles nfkc article_url (Some db') articles = Return out' /\
    incl out' out.
Proof.
  intros Hsub Hp.
  rewrite !memoize_articles_spec by (apply keys_parse, Hp).
  do 2 eexists; split; [reflexivity|]. split; [reflexivity|].
  intros v Hv. unfold Dict.values in *.
  apply in_map_iff in Hv as ([k v'] & Hsnd & Hin); cbn [snd] in Hsnd; subst v'.
  apply filter_In in Hin as [Hin Hkeep]; cbn [fst] in Hkeep.
  apply in_map_iff; exists (k, v); split; [reflexivity|].
  apply filter_In; split; [exact Hin|]; cbn [fst].
  apply negb_true_iff in Hkeep; apply negb_true_iff.
  unfold seen in *. destruct (href_of nfkc k) as [h|]; [|reflexivity].
  destruct (fetchone_id db h) as [i|] eqn:F; [|reflexivity].
  destruct (fetchone_id db' h) as [i'|] eqn:F'; [discriminate|].
  exfalso. apply (fetchone_id_In nfkc) in F'. apply F', Hsub.
  destruct (in_dec (list_eq_dec N.eq_dec) h (map href db)) as [Hh|Hh];
    [exact Hh|].
  apply (fetchone_id_In nfkc) in Hh; congruence.
Qed.

(** X22: what follows the first '?' or '#' of a URL has no say in the
    fate of a candidate: two candidates whose URLs agree up to there are
    both kept, both dropped, or both make the call fail the same way. *)
Theorem memoize_articles_ignores_tail
    conn (a a' : Article) (p r r' : str) (x x' : char) :
  opens_tail x -> opens_tail x' ->
  article_url a = p ++ x :: r -> article_url a' = p ++ x' :: r' ->
  (memoize_articles nfkc article_url conn [a] = Return [a] /\
   memoize_articles nfkc article_url conn [a'] = Return [a']) \/
  (memoize_articles nfkc article_url conn [a] = Return [] /\
   memoize_articles nfkc article_url conn [a'] = Return []) \/
  (exists cls args,
     memoize_articles nfkc article_url conn [a] = Raise cls args /\
     memoize_articles nfkc article_url conn [a'] = Raise cls args).
Proof.
  intros Hx Hx' Ha Ha'.
  rewrite !memoize_articles_singleton, Ha, Ha'.
  rewrite (@href_of_cut nfkc p r r' x x' Hx Hx').
  destruct (cursor conn) as [c|cls args]; cbn [bind];
    [|right; right; exists cls, args; split; reflexivity].
  destruct (href_of nfkc (p ++ x' :: r')) as [h|cls args]; cbn [bind];
    [|right; right; exists cls, args; split; reflexivity].
  destruct (fetchone_id c h);
    [right; left | left]; split; reflexivity.
Qed.

End MemoizeMore.

Lemma memoize_articles_empty_store_witness :
  memoize_articles nfkc_id url (Some [])
    [cand "http://example.com/a?x=1" "h1"; cand "http://example.com/b" "h2"]
  = Return [cand "http://example.com/a?x=1" "h1"; cand "http://example.com/b" "h2"].
Proof.
  apply (@memoize_articles_empty_store nfkc_id ParsingCandidate url).
  - repeat constructor; cbn; intuition discriminate.
  - intros a [<-|[<-|[]]]; eexists; reflexivity.
Defined.

Lemma memoize_articles_idempotent_witness :
  memoize_articles nfkc_id url (Some demo_store)
    [cand "http://example.com/b" "h4"; cand "http://example.com/c" "h3"]
  = Return [cand "http://example.com/b" "h4"; cand "http://example.com/c" "h3"].
Proof.
  apply (@memoize_articles_idempotent nfkc_id ParsingCandidate url
           (Some demo_store)
           [cand "http://example.com/a?x=1#f" "h1"; cand "http://example.com/b" "h2";
            cand "http://example.com/c" "h3"; cand "http://example.com/b" "h4"]).
  reflexivity.
Defined.

Lemma memoize_articles_aborts_on_bad_url_witness :
  exists cls args,
    memoize_articles nfkc_id url (Some demo_store)
      [cand "http://example.com/b" "h1"; cand "http://[::1/x" "h2"]
    = Raise cls args.
Proof.
  apply (@memoize_articles_aborts_on_bad_url nfkc_id ParsingCandidate url
           (Some demo_store)
           [cand "http://example.com/b" "h1"; cand "http://[::1/x" "h2"]
           (cand "http://[::1/x" "h2")
           ValueError [OStr (lit "Invalid IPv6 URL")]).
  - right; left; reflexivity.
  - reflexivity.
Defined.

Lemma memoize_articles_antitone_witness :
  exists out out',
    memoize_articles nfkc_id url (Some demo_store)
      [cand "http://example.com/a" "h1"; cand "http://example.com/b" "h2"]
    = Return out /\
    memoize_articles nfkc_id url
      (Some ({| id := 2; href := lit "example.com/b" |} :: demo_store))
      [cand "http://example.com/a" "h1"; cand "http://example.com/b" "h2"]
    = Return out' /\
    incl out' out.
Proof.
  apply (@memoize_articles_antitone nfkc_id ParsingCandidate url).
  - intros h Hh; right; exact Hh.
  - intros a [<-|[<-|[]]]; eexists; reflexivity.
Defined.

Lemma memoize_articles_ignores_tail_witness :
  (memoize_articles nfkc_id url (Some demo_store)
     [cand "http://example.com/a?page=2" "h1"]
   = Return [cand "http://example.com/a?page=2" "h1"] /\
   memoize_articles nfkc_id url (Some demo_store)
     [cand "http://example.com/a#top" "h2"]
   = Return [cand "http://example.com/a#top" "h2"]) \/
  (memoize_articles nfkc_id url (Some demo_store)
     [cand "http://example.com/a?page=2" "h1"] = Return [] /\
   memoize_articles nfkc_id url (Some demo_store)
     [cand "http://example.com/a#top" "h2"] = Return []) \/
  (exists cls args,
     memoize_articles nfkc_id url (Some demo_store)
       [cand "http://example.com/a?page=2" "h1"] = Raise cls args /\
     memoize_articles nfkc_id url (Some demo_store)
       [cand "http://example.com/a#top" "h2"] = Raise cls args).
Proof.
  apply (@memoize_articles_ignores_tail nfkc_id ParsingCandidate url
           (Some demo_store) _ _ (lit "http://example.com/a")
           (lit "page=2") (lit "top") (ord "?") (ord "#"));
    [right | left | |]; reflexivity.
Defined.

(** ** The hash-bang rewrite *)

Lemma contains_hashbang_app (m x : str) :
  ~ In (ord "#") m ->
  contains (lit "#!") (m ++ x) = contains (lit "#!") x.
Proof.
  induction m as [|c m IH]; [reflexivity|]. intros H.
  cbn [app contains]. rewrite IH by (intros Hin; apply H; right; exact Hin).
  assert (E : N.eqb (ord "#") c = false)
    by (apply N.eqb_neq; intros Hc; apply H; left; symmetry; exact Hc).
  change (lit "#!") with [ord "#"; ord "!"]. cbn [startswith].
  rewrite E. reflexivity.
Qed.

Lemma startswith_hashbang (c : char) (t : str) :
  startswith (lit "#!") (c :: t)
  = N.eqb (ord "#") c && startswith [ord "!"] t.
Proof. reflexivity. Qed.

(** After the rewrite no marker is left, and a string that begins with
    '!' afterwards began with '!' before. *)
Lemma replace_hashbang_clean (n : nat) (s : str) :
  (List.length s <= n)%nat ->
  let out := replace_from (lit "#!") (lit "?_escaped_fragment_=") 0 s in
  contains (lit "#!") out = false /\
  (startswith [ord "!"] out = true -> startswith [ord "!"] s = true).
Proof.
  revert s; induction n as [|n IH]; intros s Hn.
  - destruct s; [split; [reflexivity | auto] | cbn in Hn; lia].
  - destruct s as [|c s]; [split; [reflexivity | auto]|].
    cbn [List.length] in Hn. cbv zeta. cbn [replace_from].
    destruct (startswith (lit "#!") (c :: s)) eqn:E.
    + destruct (startswith_app _ _ E) as [b Hb].
      change (lit "#!" ++ b) with (ord "#" :: ord "!" :: b) in Hb.
      injection Hb as -> ->.
      change (pred (List.length (lit "#!"))) with 1%nat.
      cbn [replace_from].
      assert (Hb : replace_from (lit "#!") (lit "?_escaped_fragment_=") 1
                     (ord "!" :: b)
                   = replace_from (lit "#!") (lit "?_escaped_fragment_=") 0 b)
        by (destruct b; reflexivity).
      destruct (IH b ltac:(cbn [List.length] in Hn; lia)) as [Hc _].
      cbv zeta in Hc. split.
      * rewrite contains_hashbang_app; [exact Hc|].
        cbn; intuition discriminate.
      * intros H; discriminate H.
    + destruct (IH s ltac:(lia)) as [Hc Hh]. cbv zeta in Hc, Hh. split.
      * cbn [contains]. rewrite Hc, orb_false_r.
        rewrite startswith_hashbang in E |- *.
        destruct (N.eqb (ord "#") c); [|reflexivity]. cbn [andb] in E |- *.
        destruct (startswith [ord "!"]
                    (replace_from (lit "#!") (lit "?_escaped_fragment_=") 0 s))
          eqn:Es; [|reflexivity].
        rewrite (Hh eq_refl) in E; discriminate E.
      * cbn [startswith]. auto.
Qed.

(** X23: the URL that [URLHelper] settles on never contains the marker
    '#!', so rewriting it again changes nothing. *)
Theorem final_url_has_no_hashbang (url_to_crawl : str) :
  contains (lit "#!") (final_url url_to_crawl) = false /\
  final_url (final_url url_to_crawl) = final_url url_to_crawl.
Proof.
  assert (H : contains (lit "#!") (final_url url_to_crawl) = false).
  { unfold final_url.
    destruct (contains (lit "#!") url_to_crawl) eqn:E; [|exact E].
    apply (@replace_hashbang_clean (List.length url_to_crawl) url_to_crawl).
    apply Nat.le_refl. }
  split; [exact H|].
  unfold final_url at 1. rewrite H. reflexivity.
Qed.

(** ** The de-duplicator and the hash-bang marker *)



Section HashbangKeys.

Variable nfkc : str -> str.
Variable Article : Type.
Variable article_url : Article -> str.



End HashbangKeys.


